(** * Wind field compute shader (src/main.cpp): a shallow embedding

    The program fills a render target with a 2D wind vector per pixel.  The
    work is done by a GLSL compute shader embedded in [initComputeShader];
    the C++ [main] fills the uniform block [WindFieldParams] with three
    shapes and dispatches the shader over 16x16 work groups.

    The shader computes on GLSL [float]s.  The embedding is written once
    over an interface of scalar operations ([GLfloat]) and instantiated
    twice: with IEEE-754 binary32 ([binary32], on [SpecFloat]), which is
    what the program runs on, and with the real numbers ([real_arith]),
    which is the arithmetic without rounding. *)

From Stdlib Require Import ZArith List Bool Lia Permutation.
From Stdlib Require Import Floats.SpecFloat.
From Stdlib Require Import Reals Lra.
Import ListNotations.

Local Open Scope Z_scope.

(** ** The scalar interface

    One field per operator, literal and built-in function the shader (and
    [glm::normalize] on the C++ side) applies to a [float].  [a > b] and
    [a >= b] are read as [b < a] and [b <= a].  The one law is shared by
    IEEE comparisons and the order of the reals: [a <= b] and [b < a]
    never hold together. *)
Class GLfloat : Type := {
  float : Type;
  lit_0 : float;                 (* 0.0 *)
  lit_half : float;              (* 0.5 *)
  lit_1 : float;                 (* 1 (glm::inversesqrt) *)
  lit_180 : float;               (* 180.0 *)
  lit_360 : float;               (* 360.0 *)
  lit_pi : float;                (* 3.1415926535 *)
  fadd : float -> float -> float;
  fsub : float -> float -> float;
  fmul : float -> float -> float;
  fdiv : float -> float -> float;
  fneg : float -> float;
  fabs : float -> float;         (* abs *)
  fsqrt : float -> float;        (* sqrt *)
  fcos : float -> float;         (* cos *)
  fsin : float -> float;         (* sin *)
  fatan2 : float -> float -> float;  (* atan(y, x) *)
  flength : float -> float -> float; (* length(vec2(x, y)) *)
  fle : float -> float -> bool;
  flt : float -> float -> bool;
  float_of_int : Z -> float;     (* int -> float conversion *)
  fle_flt_excl : forall a b, fle a b = true -> flt b a = true -> False
}.

Definition fge `{GLfloat} (a b : float) : bool := fle b a.
Definition fgt `{GLfloat} (a b : float) : bool := flt b a.

Section Shader.
Context {A : GLfloat}.

Record vec2 : Type := mk_vec2 { vx : float; vy : float }.
Record vec4 : Type := mk_vec4 { cr : float; cg : float; cb : float; ca : float }.

Definition vzero : vec2 := mk_vec2 lit_0 lit_0.                    (* vec2(0.0) *)
Definition vadd (a b : vec2) : vec2 := mk_vec2 (fadd (vx a) (vx b)) (fadd (vy a) (vy b)).
Definition vsub (a b : vec2) : vec2 := mk_vec2 (fsub (vx a) (vx b)) (fsub (vy a) (vy b)).
Definition vscale (a : vec2) (k : float) : vec2 := mk_vec2 (fmul (vx a) k) (fmul (vy a) k).
Definition length (v : vec2) : float := flength (vx v) (vy v).
(** GLSL defines [distance(p0, p1)] as [length(p0 - p1)]. *)
Definition distance (p q : vec2) : float := length (vsub p q).

Definition SHAPE_CIRCLE : Z := 0.
Definition SHAPE_RECT : Z := 1.
Definition SHAPE_SECTOR : Z := 2.

Record WindShape : Type := mk_WindShape {
  type : Z;
  padding0 : float;
  pos : vec2;
  size : vec2;
  rotation : float;
  angleRange : float;
  windDir : vec2;
  windSpeed : float;
  padding1 : float
}.

(** [shapes] is the array [WindShape shapes[128]]. *)
Record WindFieldParams : Type := mk_WindFieldParams {
  shapeCount : Z;
  rtWidth : Z;
  rtHeight : Z;
  params_padding1 : Z;
  shapes : list WindShape
}.

Definition MAX_SHAPES : Z := 128.

Definition deg2rad (deg : float) : float := fdiv (fmul deg lit_pi) lit_180.

Definition rotateVec (v : vec2) (rad : float) : vec2 :=
  let c := fcos rad in
  let s := fsin rad in
  mk_vec2 (fsub (fmul (vx v) c) (fmul (vy v) s))
          (fadd (fmul (vx v) s) (fmul (vy v) c)).

Definition isInCircle (pixelPos : vec2) (shape : WindShape) : bool :=
  let r := vx (size shape) in
  let dist := length (vsub pixelPos (pos shape)) in
  fle dist r.

Definition isInRect (pixelPos : vec2) (shape : WindShape) : bool :=
  let halfSize := vscale (size shape) lit_half in
  let delta := vsub pixelPos (pos shape) in
  let rad := deg2rad (fneg (rotation shape)) in
  let delta := rotateVec delta rad in
  fle (fabs (vx delta)) (vx halfSize) && fle (fabs (vy delta)) (vy halfSize).

Definition isInSector (pixelPos : vec2) (shape : WindShape) : bool :=
  let r := vx (size shape) in
  let delta := vsub pixelPos (pos shape) in
  let dist := length delta in
  if fgt dist r then false
  else
    let angle := fdiv (fmul (fatan2 (vy delta) (vx delta)) lit_180) lit_pi in
    let angle := if flt angle lit_0 then fadd angle lit_360 else angle in
    let startAngle := rotation shape in
    let endAngle := fadd startAngle (angleRange shape) in
    if fgt endAngle lit_360
    then fge angle startAngle || fle angle (fsub endAngle lit_360)
    else fge angle startAngle && fle angle endAngle.

Definition getShapeWindVec (pixelPos : vec2) (shape : WindShape) : vec2 :=
  let baseVec := vscale (windDir shape) (windSpeed shape) in
  baseVec.

(** The [switch] of the loop body. *)
Definition isInShape (pixelPos : vec2) (shape : WindShape) : bool :=
  if type shape =? SHAPE_CIRCLE then isInCircle pixelPos shape
  else if type shape =? SHAPE_RECT then isInRect pixelPos shape
  else if type shape =? SHAPE_SECTOR then isInSector pixelPos shape
  else false.

(** One iteration of the loop body, after [shape = params.shapes[i]]. *)
Definition loop_body (pixelPos : vec2) (totalWindVec : vec2) (shape : WindShape) : vec2 :=
  if isInShape pixelPos shape
  then vadd totalWindVec (getShapeWindVec pixelPos shape)
  else totalWindVec.

(** [for (int i = 0; i < params.shapeCount; i++)], entered at index [i] with
    [n] iterations left.  Indexing [shapes] outside the declared array is
    undefined in GLSL: [None]. *)
Fixpoint shape_loop (arr : list WindShape) (pixelPos : vec2)
         (n : nat) (i : Z) (totalWindVec : vec2) : option vec2 :=
  match n with
  | O => Some totalWindVec
  | S n' =>
      match nth_error arr (Z.to_nat i) with
      | None => None
      | Some shape => shape_loop arr pixelPos n' (i + 1) (loop_body pixelPos totalWindVec shape)
      end
  end.

(** Lines 204-230: the accumulator starts at [vec2(0.0)]. *)
Definition accumulate (params : WindFieldParams) (pixelPos : vec2) : option vec2 :=
  shape_loop (shapes params) pixelPos (Z.to_nat (shapeCount params)) 0 vzero.

(** The same accumulation over a plain list of shapes. *)
Definition evaluate (cellPosition : vec2) (l : list WindShape) : vec2 :=
  fold_left (loop_body cellPosition) l vzero.

(** *** The render target

    An [rgba32f] image of [img_w] x [img_h] texels.  [imageStore] outside
    the image has no effect. *)
Record image2D : Type := mk_image2D {
  img_w : Z;
  img_h : Z;
  texel : Z -> Z -> vec4
}.

Definition in_image (img : image2D) (c : Z * Z) : bool :=
  (0 <=? fst c) && (fst c <? img_w img) && (0 <=? snd c) && (snd c <? img_h img).

Definition imageStore (img : image2D) (c : Z * Z) (v : vec4) : image2D :=
  if in_image img c
  then mk_image2D (img_w img) (img_h img)
         (fun x y => if (x =? fst c) && (y =? snd c) then v else texel img x y)
  else img.

(** [ivec2(gl_GlobalInvocationID.xy)]: the components are 32-bit unsigned;
    the conversion to [int] keeps the bit pattern. *)
Definition int_of_uint (u : Z) : Z := if u <? 2 ^ 31 then u else u - 2 ^ 32.
Definition ivec2_of_uvec2 (g : Z * Z) : Z * Z := (int_of_uint (fst g), int_of_uint (snd g)).

(** The shader's [main] for one invocation. *)
Definition cs_main (params : WindFieldParams) (windRT : image2D)
           (gl_GlobalInvocationID : Z * Z) : option image2D :=
  let pixelCoord := ivec2_of_uvec2 gl_GlobalInvocationID in
  let pixelPos := mk_vec2 (float_of_int (fst pixelCoord)) (float_of_int (snd pixelCoord)) in
  if (fst pixelCoord >=? rtWidth params) || (snd pixelCoord >=? rtHeight params)
  then Some windRT
  else
    match accumulate params pixelPos with
    | None => None
    | Some totalWindVec =>
        Some (imageStore windRT pixelCoord
                (mk_vec4 (vx totalWindVec) (vy totalWindVec) lit_0 lit_0))
    end.

End Shader.

Arguments vec2 : clear implicits.
Arguments vec4 : clear implicits.
Arguments WindShape : clear implicits.
Arguments WindFieldParams : clear implicits.
Arguments image2D : clear implicits.

(** ** The C++ side: [glm::normalize]

    GLM is a third-party header library; [glm::normalize(v)] is
    [v * inversesqrt(dot(v, v))] with [inversesqrt(x) = 1 / sqrt(x)]. *)
Section Glm.
Context {A : GLfloat}.

Definition glm_dot (a b : vec2 A) : float :=
  fadd (fmul (vx a) (vx b)) (fmul (vy a) (vy b)).
Definition glm_inversesqrt (x : float) : float := fdiv lit_1 (fsqrt x).
Definition glm_normalize (v : vec2 A) : vec2 A := vscale v (glm_inversesqrt (glm_dot v v)).

End Glm.

(** ** Names the spec uses *)
Section SpecNames.
Context {A : GLfloat}.

(** [shape.windDirection * shape.windSpeed]. *)
Definition contribution (s : WindShape A) : vec2 A := vscale (windDir s) (windSpeed s).

(** The angle [isInSector] computes for [delta]: [atan] in degrees, with
    360 added when negative. *)
Definition polar_angle (delta : vec2 A) : float :=
  let angle := fdiv (fmul (fatan2 (vy delta) (vx delta)) lit_180) lit_pi in
  if flt angle lit_0 then fadd angle lit_360 else angle.

(** The sweep test of the spec: [start = rotationDegrees],
    [end = start + angleRangeDegrees]; wrapped when [end > 360]. *)
Definition in_sweep (angle start range : float) : bool :=
  let e := fadd start range in
  if fgt e lit_360
  then fge angle start || fle angle (fsub e lit_360)
  else fge angle start && fle angle e.

(** The rectangle test in the rectangle's own frame. *)
Definition in_half_extents (d : vec2 A) (sz : vec2 A) : bool :=
  fle (fabs (vx d)) (fmul (vx sz) lit_half) && fle (fabs (vy d)) (fmul (vy sz) lit_half).

(** The query point rotated by [-rotation] about the rectangle's centre. *)
Definition inverse_rotated (p : vec2 A) (shape : WindShape A) : vec2 A :=
  vadd (pos shape) (rotateVec (vsub p (pos shape)) (deg2rad (fneg (rotation shape)))).

(** The same rectangle at rotation 0. *)
Definition unrotated (shape : WindShape A) : WindShape A :=
  mk_WindShape (type shape) (padding0 shape) (pos shape) (size shape) lit_0
    (angleRange shape) (windDir shape) (windSpeed shape) (padding1 shape).

Definition zero4 : vec4 A := mk_vec4 lit_0 lit_0 lit_0 lit_0.

End SpecNames.

(** The C++ statements [windParams.shapeCount = n] and
    [windParams.shapes[k] = s]: plain assignments.  Writing outside the
    array is undefined behaviour ([None]); nothing checks [n]. *)
Section Assign.
Context {A : GLfloat}.

Definition assign_shapeCount (p : WindFieldParams A) (n : Z) : WindFieldParams A :=
  mk_WindFieldParams n (rtWidth p) (rtHeight p) (params_padding1 p) (shapes p).

Fixpoint list_set {T : Type} (l : list T) (k : nat) (v : T) : option (list T) :=
  match l, k with
  | [], _ => None
  | _ :: tl, O => Some (v :: tl)
  | hd :: tl, S k' => option_map (cons hd) (list_set tl k' v)
  end.

Definition assign_shape (p : WindFieldParams A) (k : Z) (s : WindShape A)
  : option (WindFieldParams A) :=
  if k <? 0 then None
  else option_map (mk_WindFieldParams (shapeCount p) (rtWidth p) (rtHeight p) (params_padding1 p))
                  (list_set (shapes p) (Z.to_nat k) s).

End Assign.

(** ** The dispatch

    [glDispatchCompute] starts one invocation per id.  The invocations share
    nothing but the read-only parameters, and each stores to the texel of
    its own id only, so a dispatch is modelled as a schedule: the
    invocations one after the other, in some order. *)
Section Dispatch.
Context {A : GLfloat}.

(** A schedule: the invocations of a dispatch, one after the other. *)
Fixpoint run_invocations (params : WindFieldParams A) (img : image2D A)
         (ids : list (Z * Z)) : option (image2D A) :=
  match ids with
  | [] => Some img
  | g :: rest =>
      match cs_main params img g with
      | None => None
      | Some img' => run_invocations params img' rest
      end
  end.

(** The ids of [glDispatchCompute(nx, ny, 1)] with 16 x 16 work groups. *)
Definition dispatch_ids (nx ny : Z) : list (Z * Z) :=
  flat_map (fun y => map (fun x => (Z.of_nat x, Z.of_nat y)) (seq 0 (Z.to_nat (16 * nx))))
           (seq 0 (Z.to_nat (16 * ny))).

(** What an invocation stores at (x, y). *)
Definition cell_value (params : WindFieldParams A) (x y : Z) : vec4 A :=
  let t := evaluate (mk_vec2 (float_of_int x) (float_of_int y))
                    (firstn (Z.to_nat (shapeCount params)) (shapes params)) in
  mk_vec4 (vx t) (vy t) lit_0 lit_0.

Definition in_grid (params : WindFieldParams A) (x y : Z) : Prop :=
  0 <= x < rtWidth params /\ 0 <= y < rtHeight params.

Definition glDispatchCompute (params : WindFieldParams A) (img : image2D A)
           (nx ny : Z) : option (image2D A) :=
  run_invocations params img (dispatch_ids nx ny).

End Dispatch.

(** What the rotation invariance needs of the arithmetic: adding and then
    subtracting the centre gives the offset back, and rotating by the angle
    of rotation 0 is the identity. *)
Record exact_rotation_laws (A : GLfloat) : Prop := {
  law_add_sub : forall a b : float, fsub (fadd a b) a = b;
  law_cos_0 : fcos (deg2rad (fneg lit_0)) = lit_1;
  law_sin_0 : fsin (deg2rad (fneg lit_0)) = lit_0;
  law_mul_1 : forall x : float, fmul x lit_1 = x;
  law_mul_0 : forall x : float, fmul x lit_0 = lit_0;
  law_sub_0 : forall x : float, fsub x lit_0 = x;
  law_add_0 : forall x : float, fadd lit_0 x = x
}.

(** ** IEEE-754 binary32

    GLSL 4.30 [float] and C++ [float]: 24 bits of precision, exponents up
    to 2^128.  [+], [-], [*], [/] and [sqrt] round to nearest-even
    ([SpecFloat]).  GLSL leaves the accuracy of [cos], [sin] and [atan] to
    the implementation, so the instance takes them as a parameter. *)
Module B32.

Definition prec : Z := 24.
Definition emax : Z := 128.

Definition of_Z (z : Z) : spec_float := binary_normalize prec emax z 0 false.
(** The literal [m / 10^k], for [m] and [10^k] below 2^24: the correctly
    rounded quotient of two exact numbers. *)
Definition dec (m : Z) (k : Z) : spec_float := SFdiv prec emax (of_Z m) (of_Z (10 ^ k)).
(** 3.1415926535 rounds to 13176795 * 2^-22 = 3.14159274101257324... *)
Definition pi_lit : spec_float := S754_finite false 13176795 (-22).

(** The same number: identical, or equal as IEEE compares them (which adds
    only that +0.0 and -0.0 are the same). *)
Definition same_number (a b : spec_float) : Prop := a = b \/ SFeqb a b = true.

Record Builtins : Type := mk_Builtins {
  b_cos : spec_float -> spec_float;
  b_sin : spec_float -> spec_float;
  b_atan : spec_float -> spec_float -> spec_float
}.

Lemma SFcompare_antisym (a b : spec_float) (c : comparison) :
  SFcompare a b = Some c -> SFcompare b a = Some (CompOpp c).
Proof.
  destruct a as [sa|sa| |sa ma ea], b as [sb|sb| |sb mb eb]; simpl;
    try discriminate; intros [= <-]; try (destruct sa); try (destruct sb);
    try reflexivity; f_equal; rewrite (Z.compare_antisym ea eb);
    destruct (ea ?= eb)%Z; simpl; try reflexivity;
    rewrite ?CompOpp_involutive;
    change Eq with (CompOpp Eq) at 1;
    rewrite <- Pos.compare_cont_antisym; simpl; rewrite ?CompOpp_involutive; reflexivity.
Qed.

Lemma SFleb_SFltb_excl (a b : spec_float) :
  SFleb a b = true -> SFltb b a = true -> False.
Proof.
  unfold SFleb, SFltb. destruct (SFcompare a b) as [c|] eqn:E; [|discriminate].
  rewrite (SFcompare_antisym _ _ _ E). destruct c; simpl; discriminate.
Qed.

End B32.

#[export] Instance binary32 (B : B32.Builtins) : GLfloat := {|
  float := spec_float;
  lit_0 := S754_zero false;
  lit_half := B32.dec 5 1;
  lit_1 := B32.of_Z 1;
  lit_180 := B32.of_Z 180;
  lit_360 := B32.of_Z 360;
  lit_pi := B32.pi_lit;
  fadd := SFadd B32.prec B32.emax;
  fsub := SFsub B32.prec B32.emax;
  fmul := SFmul B32.prec B32.emax;
  fdiv := SFdiv B32.prec B32.emax;
  fneg := SFopp;
  fabs := SFabs;
  fsqrt := SFsqrt B32.prec B32.emax;
  fcos := B32.b_cos B;
  fsin := B32.b_sin B;
  fatan2 := B32.b_atan B;
  flength := fun x y =>
    SFsqrt B32.prec B32.emax
      (SFadd B32.prec B32.emax (SFmul B32.prec B32.emax x x) (SFmul B32.prec B32.emax y y));
  fle := SFleb;
  flt := SFltb;
  float_of_int := B32.of_Z;
  fle_flt_excl := B32.SFleb_SFltb_excl
|}.

(** ** Real arithmetic: the same operations without rounding *)
Module RealArith.
Local Open Scope R_scope.

Definition Rleb (a b : R) : bool := if Rle_dec a b then true else false.
Definition Rltb (a b : R) : bool := if Rlt_dec a b then true else false.

(** Two-argument arc tangent with range (-PI, PI]. *)
Definition atan2 (y x : R) : R :=
  if Rlt_dec 0 x then atan (y / x)
  else if Rlt_dec x 0 then (if Rle_dec 0 y then atan (y / x) + PI else atan (y / x) - PI)
  else if Rlt_dec 0 y then PI / 2
  else if Rlt_dec y 0 then - PI / 2
  else 0.

Lemma Rleb_Rltb_excl (a b : R) : Rleb a b = true -> Rltb b a = true -> False.
Proof.
  unfold Rleb, Rltb. destruct (Rle_dec a b), (Rlt_dec b a); try discriminate. lra.
Qed.

End RealArith.

#[export] Instance real_arith : GLfloat := {|
  float := R;
  lit_0 := 0%R;
  lit_half := (1 / 2)%R;
  lit_1 := 1%R;
  lit_180 := 180%R;
  lit_360 := 360%R;
  lit_pi := (31415926535 / 10000000000)%R;
  fadd := Rplus;
  fsub := Rminus;
  fmul := Rmult;
  fdiv := Rdiv;
  fneg := Ropp;
  fabs := Rabs;
  fsqrt := sqrt;
  fcos := cos;
  fsin := sin;
  fatan2 := RealArith.atan2;
  flength := fun x y => sqrt (x * x + y * y)%R;
  fle := RealArith.Rleb;
  flt := RealArith.Rltb;
  float_of_int := IZR;
  fle_flt_excl := RealArith.Rleb_Rltb_excl
|}.

(** ** The C++ side: the parameters [main] uploads (lines 376-405)

    [windParams] is a global, so every field [main] does not assign is
    zero; [float] is binary32. *)
Module Host.
Section Params.
Variable B : B32.Builtins.
Local Abbreviation A := (binary32 B).

Definition vec (x y : spec_float) : vec2 A := @mk_vec2 A x y.

Definition zero_shape : WindShape A :=
  @mk_WindShape A 0 (S754_zero false) (vec (S754_zero false) (S754_zero false))
    (vec (S754_zero false) (S754_zero false)) (S754_zero false) (S754_zero false)
    (vec (S754_zero false) (S754_zero false)) (S754_zero false) (S754_zero false).

Definition shape0 : WindShape A :=
  @mk_WindShape A SHAPE_CIRCLE (S754_zero false)
    (vec (B32.of_Z 200) (B32.of_Z 300))
    (vec (B32.of_Z 100) (B32.of_Z 0))
    (B32.of_Z 0) (B32.of_Z 0)
    (@glm_normalize A (vec (B32.dec 5 1) (B32.of_Z 1)))
    (B32.dec 5 1) (S754_zero false).

Definition shape1 : WindShape A :=
  @mk_WindShape A SHAPE_RECT (S754_zero false)
    (vec (B32.of_Z 300) (B32.of_Z 200))
    (vec (B32.of_Z 200) (B32.of_Z 100))
    (B32.of_Z 45) (B32.of_Z 0)
    (@glm_normalize A (vec (B32.of_Z 1) (B32.dec 5 1)))
    (B32.dec 8 1) (S754_zero false).

Definition shape2 : WindShape A :=
  @mk_WindShape A SHAPE_SECTOR (S754_zero false)
    (vec (B32.of_Z 400) (B32.of_Z 500))
    (vec (B32.of_Z 150) (B32.of_Z 0))
    (B32.of_Z 30) (B32.of_Z 120)
    (@glm_normalize A (vec (B32.of_Z 0) (B32.dec 3 1)))
    (B32.dec 6 1) (S754_zero false).

Definition RT_WIDTH : Z := 1024.
Definition RT_HEIGHT : Z := 768.

Definition windParams : WindFieldParams A :=
  @mk_WindFieldParams A 3 RT_WIDTH RT_HEIGHT 0
    (shape0 :: shape1 :: shape2 :: repeat zero_shape 125).

End Params.
End Host.

(** ** A closed binary32 instance for evaluation

    The examples need [cos], [sin] and [atan] at four arguments only.
    [Sample.builtins] returns the binary32 number nearest to the
    mathematical value there, and NaN anywhere else. *)
Module Sample.

(** [deg2rad(-45.0)] = -0.785398185... *)
Definition rad_m45 : spec_float := S754_finite true 13176795 (-24).
(** 0.707106769...: nearest to both [cos] and [-sin] of [rad_m45]. *)
Definition cos45 : spec_float := S754_finite false 11863283 (-24).

(** A direction at 355 degrees: (1000, -87.4886627...), and its [atan],
    -0.0872664601... *)
Definition p355_x : spec_float := S754_finite false 16384000 (-14).
Definition p355_y : spec_float := S754_finite true 11467314 (-17).
Definition atan355 : spec_float := S754_finite true 11712706 (-27).
(** A direction at 200 degrees: (-939.692627..., -342.020111...), and its
    [atan], -2.79252672... *)
Definition p200_x : spec_float := S754_finite true 15395924 (-14).
Definition p200_y : spec_float := S754_finite true 11207315 (-15).
Definition atan200 : spec_float := S754_finite true 11712706 (-22).

Definition cos (x : spec_float) : spec_float :=
  match x with
  | S754_zero _ => B32.of_Z 1
  | _ => if SFeqb x rad_m45 then cos45 else S754_nan
  end.

Definition sin (x : spec_float) : spec_float :=
  match x with
  | S754_zero s => S754_zero s
  | _ => if SFeqb x rad_m45 then SFopp cos45 else S754_nan
  end.

Definition atan (y x : spec_float) : spec_float :=
  if SFeqb y p355_y && SFeqb x p355_x then atan355
  else if SFeqb y p200_y && SFeqb x p200_x then atan200
  else S754_nan.

Definition builtins : B32.Builtins := B32.mk_Builtins cos sin atan.

Abbreviation arith := (binary32 builtins).

Definition vec (x y : spec_float) : vec2 arith := @mk_vec2 arith x y.

(** A circle with centre [c], radius [r], wind direction [d], speed [s]. *)
Definition circle (c : vec2 arith) (r : spec_float) (d : vec2 arith) (s : spec_float)
  : WindShape arith :=
  @mk_WindShape arith SHAPE_CIRCLE (S754_zero false) c (vec r (S754_zero false))
    (S754_zero false) (S754_zero false) d s (S754_zero false).

End Sample.

(** ** Example data *)

(** The scenario of the spec: a circle at (5,5) of radius 2, direction
    (1,0), speed 3. *)
Definition scenario_circle : WindShape Sample.arith :=
  Sample.circle (Sample.vec (B32.of_Z 5) (B32.of_Z 5)) (B32.of_Z 2)
                (Sample.vec (B32.of_Z 1) (B32.of_Z 0)) (B32.of_Z 3).

(** A 10 x 10 grid is covered by one 16 x 16 work group; invocation (12, 3)
    is in the overhang. *)
Definition grid10 : WindFieldParams Sample.arith :=
  @mk_WindFieldParams Sample.arith 1 10 10 0 [scenario_circle].

Definition blank10 : image2D Sample.arith :=
  @mk_image2D Sample.arith 10 10
    (fun _ _ => @mk_vec4 Sample.arith (B32.of_Z 7) (B32.of_Z 7) (B32.of_Z 7) (B32.of_Z 7)).

(** A set that holds 128 circles, [shapeCount] = 128. *)
Definition full_params : WindFieldParams Sample.arith :=
  @mk_WindFieldParams Sample.arith 128 10 10 0 (repeat scenario_circle 128).

(** Three circles of radius 1 around the origin, all with direction (1,0):
    one of speed 16777216 = 2^24 and two of speed 1. *)
Definition circle32 (B : B32.Builtins) (speed : Z) : WindShape (binary32 B) :=
  @mk_WindShape (binary32 B) SHAPE_CIRCLE (S754_zero false)
    (Host.vec B (S754_zero false) (S754_zero false))
    (Host.vec B (B32.of_Z 1) (S754_zero false))
    (S754_zero false) (S754_zero false)
    (Host.vec B (B32.of_Z 1) (S754_zero false)) (B32.of_Z speed) (S754_zero false).

(** A sector at the origin with radius 2000, rotation 350 and range 20;
    the points [Sample.p355] and [Sample.p200] lie about 1000 away at 355
    and 200 degrees. *)
Definition wrap_sector : WindShape Sample.arith :=
  @mk_WindShape Sample.arith SHAPE_SECTOR (S754_zero false)
    (Sample.vec (S754_zero false) (S754_zero false))
    (Sample.vec (B32.of_Z 2000) (S754_zero false))
    (B32.of_Z 350) (B32.of_Z 20)
    (Sample.vec (B32.of_Z 1) (S754_zero false)) (B32.of_Z 1) (S754_zero false).

(** A 3 x 8 rectangle centred at (2^24, 0), rotated by 45 degrees, and the
    point two units to the right of its centre.  The offset (2, 0) rotates
    to (1.41421354, -1.41421354), inside the half extents (1.5, 4).  Added
    to the centre, 2^24 + 1.41421354 rounds to 2^24 + 2 (binary32 numbers
    are 2 apart there), so the inverse-rotated point is 2 away from the
    centre along x: outside 1.5. *)
Definition far_rect (B : B32.Builtins) : WindShape (binary32 B) :=
  @mk_WindShape (binary32 B) SHAPE_RECT (S754_zero false)
    (Host.vec B (B32.of_Z 16777216) (S754_zero false))
    (Host.vec B (B32.of_Z 3) (B32.of_Z 8))
    (B32.of_Z 45) (S754_zero false)
    (Host.vec B (B32.of_Z 1) (S754_zero false)) (B32.of_Z 1) (S754_zero false).

Definition far_point (B : B32.Builtins) : vec2 (binary32 B) :=
  Host.vec B (B32.of_Z 16777218) (S754_zero false).

(** Two overlapping circles over the reals. *)
Definition real_circle (cx cy r dx dy s : R) : WindShape real_arith :=
  @mk_WindShape real_arith SHAPE_CIRCLE 0%R (@mk_vec2 real_arith cx cy)
    (@mk_vec2 real_arith r 0%R) 0%R 0%R (@mk_vec2 real_arith dx dy) s 0%R.

(** ** The dispatch of [main]

    [glDispatchCompute((RT_WIDTH + 15) / 16, (RT_HEIGHT + 15) / 16, 1)]:
    [group_count n] is the number of work groups along an axis of [n]
    cells.  [/] on C++ [int]s truncates. *)
Definition group_count (n : Z) : Z := Z.quot (n + 15) 16.

(** One pass of the main loop over the render target (line 421), for the
    parameters [main] uploads. *)
Definition main_dispatch (B : B32.Builtins) (windRT : image2D (binary32 B))
  : option (image2D (binary32 B)) :=
  glDispatchCompute (Host.windParams B) windRT
    (group_count Host.RT_WIDTH) (group_count Host.RT_HEIGHT).

(** A render target of the size [initWindRT] allocates; [glTexImage2D] is
    given no data, so the texels are whatever [init] says. *)
Definition windRT_of (B : B32.Builtins) (init : Z -> Z -> vec4 (binary32 B))
  : image2D (binary32 B) :=
  @mk_image2D (binary32 B) Host.RT_WIDTH Host.RT_HEIGHT init.

(** ** Classes of binary32 values *)
Definition is_nan (x : spec_float) : bool :=
  match x with S754_nan => true | _ => false end.

(** Zero or a finite number. *)
Definition is_finite (x : spec_float) : bool :=
  match x with S754_zero _ | S754_finite _ _ _ => true | _ => false end.

(** Not below zero: NaN, a zero, or a positive number or infinity. *)
Definition not_negative (x : spec_float) : bool :=
  match x with
  | S754_finite s _ _ | S754_infinity s => negb s
  | _ => true
  end.

(** The outcome of comparing [a] with [c] when [a] against [b] gave [x],
    [b] against [c] gave [y], and neither is [Gt]. *)
Definition compare_chain (x y : comparison) : comparison :=
  match x, y with Eq, Eq => Eq | _, _ => Lt end.

(** * Facts about the model *)

(** ** The accumulation loop *)

Section LoopFacts.
Context {A : GLfloat}.
Implicit Types (p : vec2 A) (l arr : list (WindShape A)) (s : WindShape A).

Lemma skipn_nth_error {T : Type} (xs : list T) (k : nat) (x : T) :
  nth_error xs k = Some x -> skipn k xs = x :: skipn (S k) xs.
Proof.
  revert k; induction xs as [|y ys IH]; intros [|k]; simpl; try discriminate.
  - now intros [= ->].
  - intros H. now rewrite (IH _ H).
Qed.

Lemma to_nat_succ (i : Z) : 0 <= i -> Z.to_nat (i + 1) = S (Z.to_nat i).
Proof. lia. Qed.

(** In range, the loop is a left fold over the entries it visits. *)
Lemma shape_loop_in_range arr p (n : nat) :
  forall (i : Z) (acc : vec2 A),
    0 <= i -> (Z.to_nat i + n <= List.length arr)%nat ->
    shape_loop arr p n i acc
    = Some (fold_left (loop_body p) (firstn n (skipn (Z.to_nat i) arr)) acc).
Proof.
  induction n as [|n IH]; intros i acc Hi Hlen; simpl.
  - reflexivity.
  - destruct (nth_error arr (Z.to_nat i)) as [s|] eqn:E.
    + rewrite (skipn_nth_error _ _ _ E); simpl.
      rewrite IH by lia. now rewrite to_nat_succ.
    + apply nth_error_None in E. lia.
Qed.

(** A loop that runs past the end of the array reads outside it. *)
Lemma shape_loop_out_of_range arr p (n : nat) :
  forall (i : Z) (acc : vec2 A),
    0 <= i -> (Z.to_nat i <= List.length arr < Z.to_nat i + n)%nat ->
    shape_loop arr p n i acc = None.
Proof.
  induction n as [|n IH]; intros i acc Hi Hlen; simpl.
  - lia.
  - destruct (nth_error arr (Z.to_nat i)) as [s|] eqn:E; [|reflexivity].
    assert (Z.to_nat i < List.length arr)%nat
      by (apply nth_error_Some; rewrite E; discriminate).
    apply IH; [lia|]. rewrite to_nat_succ by lia. lia.
Qed.

Lemma accumulate_in_range (params : WindFieldParams A) p :
  shapeCount params <= Z.of_nat (List.length (shapes params)) ->
  accumulate params p
  = Some (evaluate p (firstn (Z.to_nat (shapeCount params)) (shapes params))).
Proof.
  intros H. unfold accumulate, evaluate.
  rewrite shape_loop_in_range by lia. reflexivity.
Qed.

(** The loop adds the contributions of the containing shapes, in order. *)
Lemma fold_loop_body p l :
  forall acc : vec2 A,
    fold_left (loop_body p) l acc
    = fold_left vadd (map contribution (filter (isInShape p) l)) acc.
Proof.
  induction l as [|s l IH]; intros acc; simpl; [reflexivity|].
  unfold loop_body at 2. destruct (isInShape p s); simpl; apply IH.
Qed.

Lemma evaluate_app p l1 l2 :
  evaluate p (l1 ++ l2) = fold_left (loop_body p) l2 (evaluate p l1).
Proof. unfold evaluate. apply fold_left_app. Qed.

Lemma unknown_kind_not_contained p s :
  type s <> SHAPE_CIRCLE -> type s <> SHAPE_RECT -> type s <> SHAPE_SECTOR ->
  isInShape p s = false.
Proof.
  intros H0 H1 H2. unfold isInShape.
  destruct (Z.eqb_spec (type s) SHAPE_CIRCLE); [contradiction|].
  destruct (Z.eqb_spec (type s) SHAPE_RECT); [contradiction|].
  destruct (Z.eqb_spec (type s) SHAPE_SECTOR); [contradiction|].
  reflexivity.
Qed.

End LoopFacts.

Lemma evaluate_single {A : GLfloat} (cell : vec2 A) (shape : WindShape A) :
  evaluate cell [shape] = loop_body cell vzero shape.
Proof. reflexivity. Qed.

Lemma shape_loop_no_iteration {A : GLfloat} (arr : list (WindShape A)) (p : vec2 A)
      (count : Z) (total : vec2 A) :
  count <= 0 -> shape_loop arr p (Z.to_nat count) 0 total = Some total.
Proof. intros H. replace (Z.to_nat count) with O by lia. reflexivity. Qed.

Lemma accumulate_defined {A : GLfloat} (params : WindFieldParams A) (cell : vec2 A) :
  accumulate params cell <> None
  <-> shapeCount params <= Z.of_nat (List.length (shapes params)).
Proof.
  split.
  - intros H. destruct (Z.le_gt_cases (shapeCount params)
                          (Z.of_nat (List.length (shapes params)))) as [Hle|Hgt];
      [exact Hle|]. exfalso. apply H. unfold accumulate.
    apply shape_loop_out_of_range; lia.
  - intros H. rewrite accumulate_in_range by assumption. discriminate.
Qed.

(** ** Invocations and the render target *)

Lemma int_of_uint_small (u : Z) : 0 <= u < 2 ^ 31 -> int_of_uint u = u.
Proof. intros H. unfold int_of_uint. destruct (Z.ltb_spec u (2 ^ 31)); lia. Qed.

Lemma int_of_uint_wrapped (u : Z) : 2 ^ 31 <= u < 2 ^ 32 -> int_of_uint u < 0.
Proof. intros H. unfold int_of_uint. destruct (Z.ltb_spec u (2 ^ 31)); lia. Qed.

Section Invocation.
Context {A : GLfloat}.

Lemma in_image_spec (img : image2D A) (c : Z * Z) :
  in_image img c = true <-> (0 <= fst c < img_w img /\ 0 <= snd c < img_h img).
Proof.
  unfold in_image. rewrite !andb_true_iff, !Z.leb_le, !Z.ltb_lt. lia.
Qed.

Lemma imageStore_outside (img : image2D A) (c : Z * Z) (v : vec4 A) :
  in_image img c = false -> imageStore img c v = img.
Proof. intros H. unfold imageStore. now rewrite H. Qed.

Lemma imageStore_read (img : image2D A) (c : Z * Z) (v : vec4 A) :
  in_image img c = true -> texel (imageStore img c v) (fst c) (snd c) = v.
Proof.
  intros H. unfold imageStore. rewrite H. simpl. now rewrite !Z.eqb_refl.
Qed.

Lemma imageStore_other (img : image2D A) (c : Z * Z) (v : vec4 A) (x y : Z) :
  (x, y) <> c -> texel (imageStore img c v) x y = texel img x y.
Proof.
  intros H. unfold imageStore. destruct (in_image img c); [|reflexivity]. simpl.
  destruct (Z.eqb_spec x (fst c)), (Z.eqb_spec y (snd c)); simpl; try reflexivity.
  destruct c; simpl in *; subst; contradiction.
Qed.

(** The early return of [main]. *)
Lemma cs_main_early_return (params : WindFieldParams A) (img : image2D A) (gid : Z * Z) :
  rtWidth params <= fst (ivec2_of_uvec2 gid) \/ rtHeight params <= snd (ivec2_of_uvec2 gid) ->
  cs_main params img gid = Some img.
Proof.
  intros H. unfold cs_main.
  destruct (Z.geb_spec (fst (ivec2_of_uvec2 gid)) (rtWidth params));
  destruct (Z.geb_spec (snd (ivec2_of_uvec2 gid)) (rtHeight params));
    simpl; try reflexivity; lia.
Qed.

(** Past the bounds check, [main] stores what the loop accumulated. *)
Lemma cs_main_store (params : WindFieldParams A) (img : image2D A) (gid : Z * Z) :
  fst (ivec2_of_uvec2 gid) < rtWidth params ->
  snd (ivec2_of_uvec2 gid) < rtHeight params ->
  cs_main params img gid
  = match accumulate params (mk_vec2 (float_of_int (fst (ivec2_of_uvec2 gid)))
                                     (float_of_int (snd (ivec2_of_uvec2 gid)))) with
    | None => None
    | Some t => Some (imageStore img (ivec2_of_uvec2 gid) (mk_vec4 (vx t) (vy t) lit_0 lit_0))
    end.
Proof.
  intros Hx Hy. unfold cs_main.
  destruct (Z.geb_spec (fst (ivec2_of_uvec2 gid)) (rtWidth params)); [lia|].
  destruct (Z.geb_spec (snd (ivec2_of_uvec2 gid)) (rtHeight params)); [lia|].
  reflexivity.
Qed.

(** An invocation id that wraps to a negative coordinate is not stopped by
    the bounds check, but its store falls outside the image. *)
Lemma cs_main_negative_coordinate (params : WindFieldParams A) (img : image2D A) (gid : Z * Z) :
  fst (ivec2_of_uvec2 gid) < 0 \/ snd (ivec2_of_uvec2 gid) < 0 ->
  shapeCount params <= Z.of_nat (List.length (shapes params)) ->
  cs_main params img gid = Some img.
Proof.
  intros Hneg Hcount.
  destruct (Z.le_gt_cases (rtWidth params) (fst (ivec2_of_uvec2 gid))) as [Hx|Hx];
    [apply cs_main_early_return; now left|].
  destruct (Z.le_gt_cases (rtHeight params) (snd (ivec2_of_uvec2 gid))) as [Hy|Hy];
    [apply cs_main_early_return; now right|].
  rewrite cs_main_store by lia. rewrite accumulate_in_range by assumption.
  rewrite imageStore_outside; [reflexivity|].
  apply not_true_iff_false. rewrite in_image_spec. lia.
Qed.

End Invocation.

Section DispatchFacts.
Context {A : GLfloat}.

Lemma id_eq_dec (a b : Z * Z) : {a = b} + {a <> b}.
Proof. decide equality; apply Z.eq_dec. Defined.

Lemma cs_main_in_grid (params : WindFieldParams A) (img : image2D A) (x y : Z) :
  shapeCount params <= Z.of_nat (List.length (shapes params)) ->
  0 <= x < 2 ^ 31 -> 0 <= y < 2 ^ 31 ->
  x < rtWidth params -> y < rtHeight params ->
  cs_main params img (x, y) = Some (imageStore img (x, y) (cell_value params x y)).
Proof.
  intros Hc Hx Hy Hw Hh.
  assert (E : ivec2_of_uvec2 (x, y) = (x, y)).
  { unfold ivec2_of_uvec2; simpl. now rewrite !int_of_uint_small. }
  rewrite cs_main_store by (rewrite E; assumption).
  rewrite E. cbn [fst snd]. rewrite accumulate_in_range by assumption. reflexivity.
Qed.

Lemma imageStore_dims (img : image2D A) (c : Z * Z) (v : vec4 A) :
  img_w (imageStore img c v) = img_w img /\ img_h (imageStore img c v) = img_h img.
Proof. unfold imageStore. destruct (in_image img c); split; reflexivity. Qed.

(** Any schedule, in any order and with any repetition: it ends, keeps the
    size of the image, leaves every texel it has no in-grid invocation for
    as it was, and gives every other texel of the image its cell value. *)
Lemma run_invocations_spec (params : WindFieldParams A) (ids : list (Z * Z)) :
  shapeCount params <= Z.of_nat (List.length (shapes params)) ->
  (forall g, In g ids -> 0 <= fst g < 2 ^ 31 /\ 0 <= snd g < 2 ^ 31) ->
  forall img : image2D A,
  exists img' : image2D A,
    run_invocations params img ids = Some img'
    /\ img_w img' = img_w img /\ img_h img' = img_h img
    /\ (forall x y, In (x, y) ids -> in_grid params x y -> in_image img (x, y) = true ->
                    texel img' x y = cell_value params x y)
    /\ (forall x y, ~ (In (x, y) ids /\ in_grid params x y) ->
                    texel img' x y = texel img x y).
Proof.
  intros Hc. induction ids as [|[gx gy] rest IH]; intros Hids img.
  - exists img. simpl. repeat split; try reflexivity. intros x y [].
  - assert (Hg : 0 <= gx < 2 ^ 31 /\ 0 <= gy < 2 ^ 31) by (apply (Hids (gx, gy)); now left).
    assert (Hrest : forall g, In g rest -> 0 <= fst g < 2 ^ 31 /\ 0 <= snd g < 2 ^ 31)
      by (intros g Hin; apply Hids; now right).
    destruct Hg as [Hgx Hgy].
    destruct (Z.lt_ge_cases gx (rtWidth params)) as [Hw|Hw];
      [destruct (Z.lt_ge_cases gy (rtHeight params)) as [Hh|Hh]|].
    + (* in the grid: the invocation stores its cell value *)
      destruct (IH Hrest (imageStore img (gx, gy) (cell_value params gx gy)))
        as (img' & Hrun & Hw' & Hh' & Hset & Hkeep).
      destruct (imageStore_dims img (gx, gy) (cell_value params gx gy)) as [Dw Dh].
      exists img'. simpl. rewrite cs_main_in_grid by assumption.
      split; [exact Hrun|]. split; [congruence|]. split; [congruence|]. split.
      * intros x y Hin Hgrid Himg.
        destruct (in_dec id_eq_dec (x, y) rest) as [Hr|Hr].
        -- apply Hset; try assumption.
           apply in_image_spec. apply in_image_spec in Himg. cbn [fst snd] in *. lia.
        -- destruct Hin as [Heq|Hin]; [|contradiction].
           injection Heq as -> ->.
           rewrite Hkeep by (intros [? _]; contradiction).
           now apply (imageStore_read img (x, y)).
      * intros x y Hno.
        rewrite Hkeep by (intros [? ?]; apply Hno; split; [now right|assumption]).
        apply imageStore_other. intros Heq. injection Heq as -> ->.
        apply Hno. split; [now left|]. unfold in_grid. lia.
    + (* y overhang *)
      destruct (IH Hrest img) as (img' & Hrun & Hw' & Hh' & Hset & Hkeep).
      exists img'. simpl.
      rewrite cs_main_early_return
        by (right; unfold ivec2_of_uvec2; simpl; rewrite int_of_uint_small; lia).
      split; [exact Hrun|]. split; [exact Hw'|]. split; [exact Hh'|]. split.
      * intros x y [Heq|Hin] Hgrid Himg; [|now apply Hset].
        injection Heq as -> ->. unfold in_grid in Hgrid. lia.
      * intros x y Hno. apply Hkeep. intros [Hin Hgrid]. apply Hno. split; [now right|assumption].
    + (* x overhang *)
      destruct (IH Hrest img) as (img' & Hrun & Hw' & Hh' & Hset & Hkeep).
      exists img'. simpl.
      rewrite cs_main_early_return
        by (left; unfold ivec2_of_uvec2; simpl; rewrite int_of_uint_small; lia).
      split; [exact Hrun|]. split; [exact Hw'|]. split; [exact Hh'|]. split.
      * intros x y [Heq|Hin] Hgrid Himg; [|now apply Hset].
        injection Heq as -> ->. unfold in_grid in Hgrid. lia.
      * intros x y Hno. apply Hkeep. intros [Hin Hgrid]. apply Hno. split; [now right|assumption].
Qed.

Lemma in_dispatch_ids (nx ny x y : Z) :
  In (x, y) (dispatch_ids nx ny) <-> (0 <= x < 16 * nx /\ 0 <= y < 16 * ny).
Proof.
  unfold dispatch_ids. rewrite in_flat_map. split.
  - intros (b & Hb & Hin). apply in_map_iff in Hin. destruct Hin as (a & Heq & Ha).
    injection Heq as <- <-. apply in_seq in Hb. apply in_seq in Ha. lia.
  - intros [Hx Hy]. exists (Z.to_nat y). split; [apply in_seq; lia|].
    apply in_map_iff. exists (Z.to_nat x). split; [f_equal; lia|apply in_seq; lia].
Qed.

End DispatchFacts.

(** ** Assignments to the array *)

Lemma list_set_length {T : Type} (l l' : list T) (k : nat) (v : T) :
  list_set l k v = Some l' -> List.length l' = List.length l.
Proof.
  revert k l'; induction l as [|x xs IH]; intros [|k] l'; simpl; try discriminate.
  - now intros [= <-].
  - destruct (list_set xs k v) as [r|] eqn:E; simpl; [|discriminate].
    intros [= <-]. simpl. now rewrite (IH _ _ E).
Qed.

Lemma list_set_defined {T : Type} (l : list T) (k : nat) (v : T) :
  list_set l k v <> None <-> (k < List.length l)%nat.
Proof.
  revert k; induction l as [|x xs IH]; intros [|k]; simpl.
  - split; [congruence|lia].
  - split; [congruence|lia].
  - split; [lia|discriminate].
  - rewrite <- Nat.succ_lt_mono, <- IH.
    destruct (list_set xs k v); simpl; split; congruence.
Qed.

(** ** binary32 additions to zero *)

(** Adding to a zero accumulator returns the other operand, except that
    -0.0 becomes +0.0. *)
Lemma SFadd_zero_l (x : spec_float) :
  x <> S754_zero true -> SFadd B32.prec B32.emax (S754_zero false) x = x.
Proof.
  destruct x as [[|]| | |]; simpl; intros H; try reflexivity. now contradiction H.
Qed.

Lemma SFadd_zero_negzero :
  SFadd B32.prec B32.emax (S754_zero false) (S754_zero true) = S754_zero false.
Proof. reflexivity. Qed.

Lemma SFadd_zero_same (x : spec_float) :
  B32.same_number (SFadd B32.prec B32.emax (S754_zero false) x) x.
Proof. destruct x as [[|]| | |]; simpl; (now left) || (now right). Qed.

Lemma SFadd_comm (x y : spec_float) :
  SFadd B32.prec B32.emax x y = SFadd B32.prec B32.emax y x.
Proof.
  destruct x as [[|]|[|]| |sx mx ex], y as [[|]|[|]| |sy my ey]; try reflexivity.
  simpl. now rewrite (Z.min_comm ey ex), Z.add_comm.
Qed.

(** Two numbers added to +0.0, in either order. *)
Lemma SFadd_two_from_zero (x y : spec_float) :
  SFadd B32.prec B32.emax (SFadd B32.prec B32.emax (S754_zero false) x) y
  = SFadd B32.prec B32.emax (SFadd B32.prec B32.emax (S754_zero false) y) x.
Proof.
  destruct x as [[|]|[|]| |sx mx ex], y as [[|]|[|]| |sy my ey]; try reflexivity.
  change (SFadd B32.prec B32.emax (S754_finite sx mx ex) (S754_finite sy my ey)
          = SFadd B32.prec B32.emax (S754_finite sy my ey) (S754_finite sx mx ex)).
  apply SFadd_comm.
Qed.

Lemma b32_sum_of_two (B : B32.Builtins) (cs cs' : list (vec2 (binary32 B))) :
  Permutation cs cs' -> (List.length cs <= 2)%nat ->
  fold_left vadd cs vzero = fold_left vadd cs' vzero.
Proof.
  intros HP Hlen. destruct cs as [|a [|b [|c cs]]].
  - apply Permutation_nil in HP. now subst.
  - apply Permutation_length_1_inv in HP. now subst.
  - apply Permutation_length_2_inv in HP. destruct HP as [->| ->]; [reflexivity|].
    destruct a as [ax ay], b as [bx by_]. simpl. unfold vadd; cbn [vx vy].
    f_equal; apply SFadd_two_from_zero.
  - simpl in Hlen. lia.
Qed.

(** In binary32, (0,0) + v is v unless a component of v is -0.0. *)
Lemma b32_vadd_vzero (B : B32.Builtins) (v : vec2 (binary32 B)) :
  vx v <> S754_zero true -> vy v <> S754_zero true -> vadd vzero v = v.
Proof.
  destruct v as [x y]; simpl; intros Hx Hy.
  change (@mk_vec2 (binary32 B)
            (SFadd B32.prec B32.emax (S754_zero false) x)
            (SFadd B32.prec B32.emax (S754_zero false) y)
          = @mk_vec2 (binary32 B) x y).
  now rewrite (SFadd_zero_l x Hx), (SFadd_zero_l y Hy).
Qed.

(** ** Sums without rounding *)

Section Permuted.
Context {A : GLfloat}.
Hypothesis fadd_comm : forall a b : float, fadd a b = fadd b a.
Hypothesis fadd_assoc : forall a b c : float, fadd (fadd a b) c = fadd a (fadd b c).

Lemma vadd_swap (acc u v : vec2 A) : vadd (vadd acc u) v = vadd (vadd acc v) u.
Proof.
  unfold vadd; simpl. f_equal.
  - now rewrite !fadd_assoc, (fadd_comm (vx u)).
  - now rewrite !fadd_assoc, (fadd_comm (vy u)).
Qed.

Lemma fold_vadd_permutation (l l' : list (vec2 A)) :
  Permutation l l' -> forall acc : vec2 A, fold_left vadd l acc = fold_left vadd l' acc.
Proof.
  induction 1 as [|x l l' _ IH|x y l|l l' l'' _ IH1 _ IH2]; intros acc; simpl.
  - reflexivity.
  - apply IH.
  - now rewrite vadd_swap.
  - now rewrite IH1.
Qed.

End Permuted.

(** ** Sectors and rectangles *)

Section SectorFacts.
Context {A : GLfloat}.

Lemma isInSector_beyond_radius (p : vec2 A) (s : WindShape A) :
  fgt (distance p (pos s)) (vx (size s)) = true -> isInSector p s = false.
Proof. intros H. unfold isInSector. unfold distance in H. now rewrite H. Qed.

Lemma isInSector_within_radius (p : vec2 A) (s : WindShape A) :
  fle (distance p (pos s)) (vx (size s)) = true ->
  isInSector p s = in_sweep (polar_angle (vsub p (pos s))) (rotation s) (angleRange s).
Proof.
  intros H. unfold isInSector.
  destruct (fgt (length (vsub p (pos s))) (vx (size s))) eqn:E.
  - exfalso. exact (fle_flt_excl _ _ H E).
  - reflexivity.
Qed.

End SectorFacts.

Lemma real_rotation_laws : exact_rotation_laws real_arith.
Proof.
  assert (Hz : @deg2rad real_arith (fneg lit_0) = 0%R).
  { unfold deg2rad; simpl. lra. }
  constructor.
  - simpl; intros; lra.
  - rewrite Hz. apply cos_0.
  - rewrite Hz. apply sin_0.
  - simpl; intros; lra.
  - simpl; intros; lra.
  - simpl; intros; lra.
  - simpl; intros; lra.
Qed.

Section ExactRotation.
Context {A : GLfloat}.
Hypothesis L : exact_rotation_laws A.

Lemma vsub_vadd_cancel (c r : vec2 A) : vsub (vadd c r) c = r.
Proof.
  destruct r as [rx ry]. unfold vsub, vadd; cbn [vx vy].
  now rewrite !(law_add_sub A L).
Qed.

Lemma rotateVec_zero (r : vec2 A) : rotateVec r (deg2rad (fneg lit_0)) = r.
Proof.
  destruct r as [rx ry]. unfold rotateVec; cbn [vx vy].
  now rewrite (law_cos_0 A L), (law_sin_0 A L), !(law_mul_1 A L), !(law_mul_0 A L),
    (law_sub_0 A L), (law_add_0 A L).
Qed.

End ExactRotation.

(** * The claims *)

(** ** C1: the accumulated sum *)

(** C1. For every cell position and every shape list, the evaluated vector
    is the sum, in list order and starting from (0,0), of
    [windDir * windSpeed] over exactly the shapes that contain the cell:
    nothing is scaled by distance, clamped or averaged.  When exactly two
    shapes [a] and [b] contain the cell the result is
    [((0,0) + a's) + b's] contribution.  The shader's loop computes this
    over the first [shapeCount] entries of the array. *)
Theorem C1_sum_of_contributions {A : GLfloat} (cellPosition : vec2 A) (l : list (WindShape A)) :
  evaluate cellPosition l
  = fold_left vadd (map contribution (filter (isInShape cellPosition) l)) vzero
  /\ (forall a b : WindShape A,
        filter (isInShape cellPosition) l = [a; b] ->
        evaluate cellPosition l = vadd (vadd vzero (contribution a)) (contribution b))
  /\ (forall s : WindShape A, getShapeWindVec cellPosition s = vscale (windDir s) (windSpeed s))
  /\ (forall params : WindFieldParams A,
        shapeCount params <= Z.of_nat (List.length (shapes params)) ->
        l = firstn (Z.to_nat (shapeCount params)) (shapes params) ->
        accumulate params cellPosition = Some (evaluate cellPosition l)).
Proof.
  repeat split.
  - apply fold_loop_body.
  - intros a b Hab. unfold evaluate. rewrite fold_loop_body, Hab. reflexivity.
  - intros params Hc ->. now apply accumulate_in_range.
Qed.

(** The pixel (270, 230) of the scene [main] sets up lies in the circle and
    in the rotated rectangle, and outside the sector: the loop returns the
    two contributions added to (0,0). *)
Lemma C1_sum_of_contributions_witness :
  accumulate (Host.windParams Sample.builtins)
             (Sample.vec (B32.of_Z 270) (B32.of_Z 230))
  = Some (vadd (vadd vzero (contribution (Host.shape0 Sample.builtins)))
               (contribution (Host.shape1 Sample.builtins))).
Proof.
  pose proof (C1_sum_of_contributions (A := Sample.arith)
                (Sample.vec (B32.of_Z 270) (B32.of_Z 230))
                (firstn 3 (shapes (Host.windParams Sample.builtins)))) as (_ & H2 & _ & H4).
  rewrite (H4 (Host.windParams Sample.builtins)).
  - apply f_equal, H2. reflexivity.
  - vm_compute. discriminate.
  - reflexivity.
Defined.

(** ** C2: a single circle *)

(** In binary32 a contained cell gets windDir*windSpeed itself unless one of
    its components is -0.0. *)
Lemma b32_single_circle_exact (B : B32.Builtins)
      (cell : vec2 (binary32 B)) (shape : WindShape (binary32 B)) :
  type shape = SHAPE_CIRCLE ->
  fle (distance cell (pos shape)) (vx (size shape)) = true ->
  vx (contribution shape) <> S754_zero true ->
  vy (contribution shape) <> S754_zero true ->
  evaluate cell [shape] = contribution shape.
Proof.
  intros Ht Hle Hx Hy. rewrite evaluate_single. unfold loop_body, isInShape.
  rewrite Ht. cbn [Z.eqb SHAPE_CIRCLE]. unfold isInCircle.
  unfold distance in Hle. rewrite Hle.
  now apply b32_vadd_vzero.
Qed.

(** In binary32 the value stored for a contained cell is windDir*windSpeed
    as a number, component by component. *)
Lemma b32_single_circle_same (B : B32.Builtins)
      (cell : vec2 (binary32 B)) (shape : WindShape (binary32 B)) :
  type shape = SHAPE_CIRCLE ->
  fle (distance cell (pos shape)) (vx (size shape)) = true ->
  B32.same_number (vx (evaluate cell [shape])) (vx (contribution shape))
  /\ B32.same_number (vy (evaluate cell [shape])) (vy (contribution shape)).
Proof.
  intros Ht Hle. rewrite evaluate_single. unfold loop_body, isInShape.
  rewrite Ht. cbn [Z.eqb SHAPE_CIRCLE]. unfold isInCircle.
  unfold distance in Hle. rewrite Hle.
  split; apply SFadd_zero_same.
Qed.

(** C2. A list holding one Circle (centre [pos], radius [size.x],
    direction [windDir], speed [windSpeed]): containment is
    [distance(cell, pos) <= size.x], boundary included.  A cell at distance
    [<= size.x] evaluates to (0,0) + windDir*windSpeed and a cell at
    distance [> size.x] to (0,0), whatever the arithmetic.  In binary32
    (0,0) + windDir*windSpeed is windDir*windSpeed, number for number, and
    the very same value unless a component of it is -0.0 (which the
    addition returns as +0.0). *)
Theorem C2_single_circle :
  (forall (A : GLfloat) (cell : vec2 A) (shape : WindShape A),
      type shape = SHAPE_CIRCLE ->
      isInShape cell shape = fle (distance cell (pos shape)) (vx (size shape))
      /\ (fle (distance cell (pos shape)) (vx (size shape)) = true ->
          evaluate cell [shape] = vadd vzero (contribution shape))
      /\ (fgt (distance cell (pos shape)) (vx (size shape)) = true ->
          evaluate cell [shape] = vzero))
  /\ (forall (B : B32.Builtins) (cell : vec2 (binary32 B)) (shape : WindShape (binary32 B)),
        type shape = SHAPE_CIRCLE ->
        fle (distance cell (pos shape)) (vx (size shape)) = true ->
        B32.same_number (vx (evaluate cell [shape])) (vx (contribution shape))
        /\ B32.same_number (vy (evaluate cell [shape])) (vy (contribution shape))
        /\ (vx (contribution shape) <> S754_zero true ->
            vy (contribution shape) <> S754_zero true ->
            evaluate cell [shape] = contribution shape)).
Proof.
  split.
  - intros A cell shape Ht.
    assert (Hin : isInShape cell shape
                  = fle (distance cell (pos shape)) (vx (size shape))).
    { unfold isInShape. rewrite Ht. reflexivity. }
    split; [exact Hin|]. split.
    + intros Hle. rewrite evaluate_single. unfold loop_body. now rewrite Hin, Hle.
    + intros Hgt. rewrite evaluate_single. unfold loop_body. rewrite Hin.
      destruct (fle (distance cell (pos shape)) (vx (size shape))) eqn:Hle;
        [|reflexivity].
      exfalso. exact (fle_flt_excl _ _ Hle Hgt).
  - intros B cell shape Ht Hle.
    destruct (b32_single_circle_same B cell shape Ht Hle) as [Hx Hy].
    split; [exact Hx|]. split; [exact Hy|].
    intros Hnx Hny. now apply b32_single_circle_exact.
Qed.

Lemma C2_single_circle_witness :
  evaluate (Sample.vec (B32.of_Z 6) (B32.of_Z 5)) [scenario_circle]
  = Sample.vec (B32.of_Z 3) (B32.of_Z 0)
  /\ evaluate (Sample.vec (B32.of_Z 8) (B32.of_Z 5)) [scenario_circle] = vzero.
Proof.
  destruct C2_single_circle as [Hany H32].
  split.
  - destruct (H32 Sample.builtins (Sample.vec (B32.of_Z 6) (B32.of_Z 5)) scenario_circle)
      as (_ & _ & Hexact); [reflexivity|reflexivity|].
    rewrite Hexact; [reflexivity| |]; vm_compute; discriminate.
  - destruct (Hany Sample.arith (Sample.vec (B32.of_Z 8) (B32.of_Z 5)) scenario_circle
                eq_refl) as (_ & _ & Hout).
    apply Hout. reflexivity.
Defined.

(** The other two cells of the scenario. *)
Example scenario_centre :
  evaluate (Sample.vec (B32.of_Z 5) (B32.of_Z 5)) [scenario_circle]
  = Sample.vec (B32.of_Z 3) (B32.of_Z 0).
Proof. reflexivity. Qed.

Example scenario_origin :
  evaluate (Sample.vec (B32.of_Z 0) (B32.of_Z 0)) [scenario_circle] = vzero.
Proof. reflexivity. Qed.

(** On the boundary: (7,5) is exactly 2 away from the centre. *)
Example scenario_boundary :
  distance (Sample.vec (B32.of_Z 7) (B32.of_Z 5)) (pos scenario_circle) = B32.of_Z 2
  /\ evaluate (Sample.vec (B32.of_Z 7) (B32.of_Z 5)) [scenario_circle]
     = Sample.vec (B32.of_Z 3) (B32.of_Z 0).
Proof. split; reflexivity. Qed.


(** ** C3: sectors *)

(** C3. For a point within the radius ([distance <= size.x]) a Sector
    decides containment on the angle it computes for the point ([atan] in
    degrees, 360 added when negative): with [start = rotation] and
    [end = start + angleRange], the point is contained iff
    [angle >= start || angle <= end - 360] when [end > 360], and iff
    [angle >= start && angle <= end] otherwise.  In binary32, with
    rotation 350 and angleRange 20, a point within the radius whose angle
    is 355 is contained and one whose angle is 200 is not. *)
Theorem C3_sector_sweep :
  (forall (A : GLfloat) (p : vec2 A) (s : WindShape A),
      fle (distance p (pos s)) (vx (size s)) = true ->
      isInSector p s
      = in_sweep (polar_angle (vsub p (pos s))) (rotation s) (angleRange s))
  /\ (forall (A : GLfloat) (angle start range : float),
        in_sweep angle start range
        = if fgt (fadd start range) lit_360
          then fge angle start || fle angle (fsub (fadd start range) lit_360)
          else fge angle start && fle angle (fadd start range))
  /\ (forall (B : B32.Builtins) (p : vec2 (binary32 B)) (s : WindShape (binary32 B)),
        rotation s = B32.of_Z 350 -> angleRange s = B32.of_Z 20 ->
        fle (distance p (pos s)) (vx (size s)) = true ->
        (polar_angle (vsub p (pos s)) = B32.of_Z 355 -> isInSector p s = true)
        /\ (polar_angle (vsub p (pos s)) = B32.of_Z 200 -> isInSector p s = false)).
Proof.
  split; [|split].
  - intros A p s. apply isInSector_within_radius.
  - reflexivity.
  - intros B p s Hr Ha Hd.
    split; intros Hang; rewrite (isInSector_within_radius p s Hd), Hang, Hr, Ha;
      reflexivity.
Qed.

Lemma C3_sector_sweep_witness :
  isInSector (Sample.vec Sample.p355_x Sample.p355_y) wrap_sector = true
  /\ isInSector (Sample.vec Sample.p200_x Sample.p200_y) wrap_sector = false.
Proof.
  destruct C3_sector_sweep as (_ & _ & H).
  split.
  - apply (H Sample.builtins (Sample.vec Sample.p355_x Sample.p355_y) wrap_sector);
      reflexivity.
  - apply (H Sample.builtins (Sample.vec Sample.p200_x Sample.p200_y) wrap_sector);
      reflexivity.
Defined.

(** ** C4: rectangles *)

(** C4, amended (in binary32 the invariance fails, see the counterexample
    below).  A Rectangle decides containment by rotating
    [delta = cellPosition - pos] by [deg2rad(-rotation)] and testing
    [|delta.x| <= size.x * 0.5] and [|delta.y| <= size.y * 0.5].  When the
    arithmetic satisfies [exact_rotation_laws], as the reals do,
    containment of a point in the rectangle equals containment of the
    inverse-rotated point in the same rectangle at rotation 0. *)
Theorem C4_rect_local_frame {A : GLfloat} :
  (forall (p : vec2 A) (s : WindShape A),
      isInRect p s
      = in_half_extents (rotateVec (vsub p (pos s)) (deg2rad (fneg (rotation s))))
                        (size s))
  /\ (exact_rotation_laws A ->
      forall (p : vec2 A) (s : WindShape A),
        isInRect p s = isInRect (inverse_rotated p s) (unrotated s)).
Proof.
  split; [reflexivity|].
  intros L p s. unfold isInRect at 2. unfold inverse_rotated.
  rewrite (vsub_vadd_cancel L). cbn [rotation unrotated pos size].
  rewrite (rotateVec_zero L). reflexivity.
Qed.

Lemma C4_rect_local_frame_witness :
  isInRect (@mk_vec2 real_arith 4%R 3%R)
           (@mk_WindShape real_arith SHAPE_RECT 0%R (@mk_vec2 real_arith 3%R 2%R)
              (@mk_vec2 real_arith 4%R 2%R) 30%R 0%R (@mk_vec2 real_arith 1%R 0%R) 1%R 0%R)
  = isInRect
      (inverse_rotated (@mk_vec2 real_arith 4%R 3%R)
         (@mk_WindShape real_arith SHAPE_RECT 0%R (@mk_vec2 real_arith 3%R 2%R)
            (@mk_vec2 real_arith 4%R 2%R) 30%R 0%R (@mk_vec2 real_arith 1%R 0%R) 1%R 0%R))
      (unrotated
         (@mk_WindShape real_arith SHAPE_RECT 0%R (@mk_vec2 real_arith 3%R 2%R)
            (@mk_vec2 real_arith 4%R 2%R) 30%R 0%R (@mk_vec2 real_arith 1%R 0%R) 1%R 0%R)).
Proof.
  exact (proj2 (@C4_rect_local_frame real_arith) real_rotation_laws _ _).
Defined.

(** Counterexample to C4 (rotation invariance): the point is in the rotated
    rectangle, its inverse-rotated image is not in the unrotated one. *)
Lemma C4_counterexample :
  isInRect (far_point Sample.builtins) (far_rect Sample.builtins) = true
  /\ inverse_rotated (far_point Sample.builtins) (far_rect Sample.builtins)
     = Sample.vec (B32.of_Z 16777218) (S754_finite true 11863283 (-23))
  /\ isInRect (inverse_rotated (far_point Sample.builtins) (far_rect Sample.builtins))
              (unrotated (far_rect Sample.builtins)) = false.
Proof. repeat split. Qed.

(** The same holds for every implementation of the built-ins that returns
    the nearest binary32 number at the two angles involved. *)
Lemma rotation_rounding_any_builtins (B : B32.Builtins) :
  B32.b_cos B Sample.rad_m45 = Sample.cos45 ->
  B32.b_sin B Sample.rad_m45 = SFopp Sample.cos45 ->
  B32.b_cos B (S754_zero true) = B32.of_Z 1 ->
  B32.b_sin B (S754_zero true) = S754_zero true ->
  isInRect (far_point B) (far_rect B) = true
  /\ isInRect (inverse_rotated (far_point B) (far_rect B)) (unrotated (far_rect B)) = false.
Proof.
  intros Hc Hs Hc0 Hs0.
  assert (E1 : @deg2rad (binary32 B) (fneg (rotation (far_rect B))) = Sample.rad_m45)
    by reflexivity.
  assert (E0 : @deg2rad (binary32 B) (fneg (rotation (unrotated (far_rect B))))
               = S754_zero true) by reflexivity.
  unfold isInRect, inverse_rotated. rewrite E1, E0. unfold rotateVec.
  change (@fcos (binary32 B)) with (B32.b_cos B).
  change (@fsin (binary32 B)) with (B32.b_sin B).
  rewrite Hc, Hs, Hc0, Hs0. split; reflexivity.
Qed.

(** ** C5: capacity *)

(** C5, amended to what the code does (the counterexample below refutes
    the spec's sentence).  The program has no [add] and no
    [CapacityExceeded]: the set is the array of
    128 slots with the integer [shapeCount] beside it, both assigned
    directly.  Assigning [shapeCount] stores any value and leaves the array
    alone; assigning slot [k] is defined exactly for [0 <= k < 128] and
    keeps the array at 128 slots; the shader's loop stays inside the array
    exactly when [shapeCount <= 128]. *)
Theorem C5_capacity_is_unchecked {A : GLfloat} (params : WindFieldParams A) :
  Z.of_nat (List.length (shapes params)) = MAX_SHAPES ->
  (forall n : Z,
      shapeCount (assign_shapeCount params n) = n
      /\ shapes (assign_shapeCount params n) = shapes params)
  /\ (forall (k : Z) (s : WindShape A),
        assign_shape params k s <> None <-> 0 <= k < MAX_SHAPES)
  /\ (forall (k : Z) (s : WindShape A) (params' : WindFieldParams A),
        assign_shape params k s = Some params' ->
        Z.of_nat (List.length (shapes params')) = MAX_SHAPES
        /\ shapeCount params' = shapeCount params)
  /\ (forall cell : vec2 A,
        accumulate params cell <> None <-> shapeCount params <= MAX_SHAPES).
Proof.
  intros Hlen. split; [|split; [|split]].
  - intros n. split; reflexivity.
  - intros k s. unfold assign_shape. split.
    + destruct (Z.ltb_spec k 0) as [Hk|Hk]; [congruence|].
      intros H. rewrite <- Hlen.
      assert (Hd : list_set (shapes params) (Z.to_nat k) s <> None)
        by (destruct (list_set (shapes params) (Z.to_nat k) s); simpl in H; congruence).
      apply list_set_defined in Hd. lia.
    + intros [Hk0 Hk]. destruct (Z.ltb_spec k 0) as [Hneg|_]; [lia|].
      assert (Hd : list_set (shapes params) (Z.to_nat k) s <> None)
        by (apply list_set_defined; lia).
      destruct (list_set (shapes params) (Z.to_nat k) s); simpl; congruence.
  - intros k s params'. unfold assign_shape.
    destruct (Z.ltb_spec k 0); [discriminate|].
    destruct (list_set (shapes params) (Z.to_nat k) s) as [l'|] eqn:E; simpl;
      [|discriminate].
    intros [= <-]. simpl. rewrite (list_set_length _ _ _ _ E). now split.
  - intros cell. rewrite <- Hlen. apply accumulate_defined.
Qed.

Lemma C5_capacity_is_unchecked_witness :
  accumulate (Host.windParams Sample.builtins) (Sample.vec (B32.of_Z 0) (B32.of_Z 0))
  <> None.
Proof.
  refine (proj2 (proj2 (proj2 (proj2
            (C5_capacity_is_unchecked (Host.windParams Sample.builtins) _))) _) _).
  - reflexivity.
  - vm_compute. discriminate.
Defined.

(** Counterexample to C5: on the full set, storing a 129th count is
    accepted and the count becomes 129 (no [CapacityExceeded], the size
    does not stay 128); the shader then reads [shapes[128]], outside the
    array; and the write of a 129th shape, [shapes[128] = s], is itself
    outside the array rather than a reported failure. *)
Lemma C5_counterexample :
  shapeCount full_params = 128
  /\ Z.of_nat (List.length (shapes full_params)) = 128
  /\ shapeCount (assign_shapeCount full_params 129) = 129
  /\ accumulate (assign_shapeCount full_params 129)
                (Sample.vec (B32.of_Z 5) (B32.of_Z 5)) = None
  /\ assign_shape full_params 128 scenario_circle = None.
Proof.
  split; [reflexivity|]. split; [reflexivity|]. split; [reflexivity|].
  split; [|reflexivity].
  apply shape_loop_out_of_range; [lia|].
  cbn [assign_shapeCount shapes shapeCount full_params]. rewrite repeat_length. lia.
Qed.

(** ** C6: normalization of the direction *)

(** C6, amended to what the code does (the counterexample below refutes
    the spec's sentence).  [main] stores [glm::normalize(v)], that is [v * (1 / sqrt(v.v))] in
    binary32, with no test of the magnitude of [v].  For the three
    directions it sets, (0.5, 1), (1, 0.5) and (0, 0.3), the stored vector
    is finite and its [length] is 0.99999994, 0.99999994 and 1.  An input
    of magnitude 1e-7 is stored as the unit vector (1, 0), and the zero
    input as (NaN, NaN). *)
Theorem C6_normalize_is_unguarded (B : B32.Builtins) :
  (forall v : vec2 (binary32 B),
      glm_normalize v = vscale v (fdiv lit_1 (fsqrt (fadd (fmul (vx v) (vx v))
                                                          (fmul (vy v) (vy v))))))
  /\ windDir (Host.shape0 B)
     = Host.vec B (S754_finite false 15005998 (-25)) (S754_finite false 15005998 (-24))
  /\ windDir (Host.shape1 B)
     = Host.vec B (S754_finite false 15005998 (-24)) (S754_finite false 15005998 (-25))
  /\ windDir (Host.shape2 B) = Host.vec B (S754_zero false) (B32.of_Z 1)
  /\ length (windDir (Host.shape0 B)) = S754_finite false 16777215 (-24)
  /\ length (windDir (Host.shape1 B)) = S754_finite false 16777215 (-24)
  /\ length (windDir (Host.shape2 B)) = B32.of_Z 1
  /\ glm_normalize (Host.vec B (B32.dec 1 7) (S754_zero false))
     = Host.vec B (B32.of_Z 1) (S754_zero false)
  /\ glm_normalize (Host.vec B (S754_zero false) (S754_zero false))
     = Host.vec B S754_nan S754_nan.
Proof.
  repeat split.
Qed.

(** Counterexample to C6: the zero direction is stored as (NaN, NaN), not
    as the zero vector; and a direction of magnitude 1e-7 is stored as a
    unit vector, not as the zero vector. *)
Lemma C6_counterexample :
  vx (glm_normalize (Sample.vec (S754_zero false) (S754_zero false))) = S754_nan
  /\ vy (glm_normalize (Sample.vec (S754_zero false) (S754_zero false))) = S754_nan
  /\ glm_normalize (Sample.vec (S754_zero false) (S754_zero false)) <> vzero
  /\ glm_normalize (Sample.vec (B32.dec 1 7) (S754_zero false)) <> vzero.
Proof.
  split; [reflexivity|]. split; [reflexivity|].
  split; intros H; apply (f_equal vx) in H; vm_compute in H; discriminate H.
Qed.

(** ** C7: unknown kinds *)

(** C7. A shape whose [type] is none of SHAPE_CIRCLE, SHAPE_RECT,
    SHAPE_SECTOR takes the [default] branch: it contains no cell, its loop
    iteration leaves the accumulator as it was, the evaluation is the one
    of the list without it, and the loop goes on to the next index (no
    error value). *)
Theorem C7_unknown_kind {A : GLfloat} (cell : vec2 A) (shape : WindShape A) :
  type shape <> SHAPE_CIRCLE -> type shape <> SHAPE_RECT -> type shape <> SHAPE_SECTOR ->
  isInShape cell shape = false
  /\ (forall total : vec2 A, loop_body cell total shape = total)
  /\ (forall l1 l2 : list (WindShape A),
        evaluate cell (l1 ++ shape :: l2) = evaluate cell (l1 ++ l2))
  /\ (forall (arr : list (WindShape A)) (n : nat) (i : Z) (total : vec2 A),
        nth_error arr (Z.to_nat i) = Some shape ->
        shape_loop arr cell (S n) i total = shape_loop arr cell n (i + 1) total).
Proof.
  intros H0 H1 H2.
  pose proof (unknown_kind_not_contained cell shape H0 H1 H2) as Hin.
  assert (Hbody : forall total : vec2 A, loop_body cell total shape = total).
  { intros total. unfold loop_body. now rewrite Hin. }
  repeat split.
  - exact Hin.
  - exact Hbody.
  - intros l1 l2. rewrite !evaluate_app. simpl. now rewrite Hbody.
  - intros arr n i total E. simpl. rewrite E. now rewrite Hbody.
Qed.

Lemma C7_unknown_kind_witness :
  evaluate (Sample.vec (B32.of_Z 5) (B32.of_Z 5))
    [@mk_WindShape Sample.arith 7 (S754_zero false)
       (Sample.vec (B32.of_Z 5) (B32.of_Z 5)) (Sample.vec (B32.of_Z 2) (B32.of_Z 2))
       (S754_zero false) (S754_zero false)
       (Sample.vec (B32.of_Z 1) (B32.of_Z 0)) (B32.of_Z 3) (S754_zero false);
     scenario_circle]
  = evaluate (Sample.vec (B32.of_Z 5) (B32.of_Z 5)) [scenario_circle].
Proof.
  refine (proj1 (proj2 (proj2 (C7_unknown_kind _ _ _ _ _))) [] [scenario_circle]);
    simpl; discriminate.
Defined.

(** ** C8: order of the shapes *)

(** C8, amended (in binary32 the spec's sentence fails, see the
    counterexample below).  Permuting the shape list permutes the
    contributions that are added, and the evaluated vector is the same
    whenever the scalar addition is commutative and associative, as it is
    without rounding.  In binary32 it is the same when at most two shapes of
    the list contain the cell. *)
Theorem C8_order_with_exact_addition :
  (forall (A : GLfloat) (cell : vec2 A) (l l' : list (WindShape A)),
      Permutation l l' ->
      Permutation (map contribution (filter (isInShape cell) l))
                  (map contribution (filter (isInShape cell) l'))
      /\ ((forall a b : float, fadd a b = fadd b a) ->
          (forall a b c : float, fadd (fadd a b) c = fadd a (fadd b c)) ->
          evaluate cell l = evaluate cell l'))
  /\ (forall (B : B32.Builtins) (cell : vec2 (binary32 B))
             (l l' : list (WindShape (binary32 B))),
        Permutation l l' ->
        (List.length (filter (isInShape cell) l) <= 2)%nat ->
        evaluate cell l = evaluate cell l').
Proof.
  assert (HQ : forall (A : GLfloat) (cell : vec2 A) (l l' : list (WindShape A)),
             Permutation l l' ->
             Permutation (map contribution (filter (isInShape cell) l))
                         (map contribution (filter (isInShape cell) l'))).
  { intros A cell l l' HP. apply Permutation_map.
    induction HP as [|x l l' _ IH|x y l|l l' l'' _ IH1 _ IH2]; simpl.
    - constructor.
    - destruct (isInShape cell x); [now constructor|exact IH].
    - destruct (isInShape cell x), (isInShape cell y);
        try apply Permutation_refl. apply perm_swap.
    - now transitivity (filter (isInShape cell) l'). }
  split.
  - intros A cell l l' HP. split; [now apply HQ|].
    intros Hc Ha. unfold evaluate. rewrite !fold_loop_body.
    apply fold_vadd_permutation; [assumption|assumption|now apply HQ].
  - intros B cell l l' HP Hlen. unfold evaluate. rewrite !fold_loop_body.
    apply b32_sum_of_two; [now apply HQ|now rewrite length_map].
Qed.

Lemma C8_order_with_exact_addition_witness :
  evaluate (@mk_vec2 real_arith 1%R 1%R)
           [real_circle 0 0 2 1 0 3; real_circle 2 2 2 0 1 5]
  = evaluate (@mk_vec2 real_arith 1%R 1%R)
             [real_circle 2 2 2 0 1 5; real_circle 0 0 2 1 0 3]
  /\ evaluate (Sample.vec (S754_zero false) (S754_zero false))
              [circle32 Sample.builtins 16777216; circle32 Sample.builtins 1]
     = evaluate (Sample.vec (S754_zero false) (S754_zero false))
                [circle32 Sample.builtins 1; circle32 Sample.builtins 16777216].
Proof.
  destruct C8_order_with_exact_addition as [Hexact H32].
  split.
  - apply (proj2 (Hexact real_arith (@mk_vec2 real_arith 1%R 1%R)
                    [real_circle 0 0 2 1 0 3; real_circle 2 2 2 0 1 5]
                    [real_circle 2 2 2 0 1 5; real_circle 0 0 2 1 0 3]
                    (perm_swap _ _ []))).
    + exact Rplus_comm.
    + exact Rplus_assoc.
  - apply (H32 Sample.builtins); [apply perm_swap|]. simpl. lia.
Defined.

(** Whatever the built-ins: 2^24 + 1 + 1 is 2^24 (each sum is a tie that
    rounds to even), and 1 + 1 + 2^24 is 2^24 + 2. *)
Lemma order_changes_rounding (B : B32.Builtins) :
  evaluate (Host.vec B (S754_zero false) (S754_zero false))
           [circle32 B 16777216; circle32 B 1; circle32 B 1]
  = Host.vec B (B32.of_Z 16777216) (S754_zero false)
  /\ evaluate (Host.vec B (S754_zero false) (S754_zero false))
              [circle32 B 1; circle32 B 1; circle32 B 16777216]
     = Host.vec B (B32.of_Z 16777218) (S754_zero false).
Proof. split; reflexivity. Qed.

(** Counterexample to C8: a cell inside three circles; the list and a
    permutation of it evaluate to (16777216, 0) and (16777218, 0). *)
Lemma C8_counterexample :
  Permutation [circle32 Sample.builtins 16777216; circle32 Sample.builtins 1;
               circle32 Sample.builtins 1]
              [circle32 Sample.builtins 1; circle32 Sample.builtins 1;
               circle32 Sample.builtins 16777216]
  /\ evaluate (Sample.vec (S754_zero false) (S754_zero false))
              [circle32 Sample.builtins 16777216; circle32 Sample.builtins 1;
               circle32 Sample.builtins 1]
     <> evaluate (Sample.vec (S754_zero false) (S754_zero false))
                 [circle32 Sample.builtins 1; circle32 Sample.builtins 1;
                  circle32 Sample.builtins 16777216].
Proof.
  split.
  - exact (Permutation_cons_append
             [circle32 Sample.builtins 1; circle32 Sample.builtins 1]
             (circle32 Sample.builtins 16777216)).
  - intros H. apply (f_equal vx) in H. vm_compute in H. discriminate H.
Qed.

(** ** C9: tile overhang *)

(** C9. An invocation whose cell coordinate lies outside
    [0, rtWidth) x [0, rtHeight) returns the render target as it received
    it: nothing is stored, so every texel keeps its value.  Invocation ids
    are unsigned; below 2^31 the conversion to [ivec2] keeps them, and
    "outside" is then [x >= rtWidth] or [y >= rtHeight], the test of the
    shader. *)
Theorem C9_overhang_returns_unchanged {A : GLfloat}
        (params : WindFieldParams A) (windRT : image2D A) (gid : Z * Z) :
  0 <= fst gid < 2 ^ 31 -> 0 <= snd gid < 2 ^ 31 ->
  ~ (0 <= fst gid < rtWidth params /\ 0 <= snd gid < rtHeight params) ->
  ivec2_of_uvec2 gid = gid
  /\ cs_main params windRT gid = Some windRT.
Proof.
  intros Hx Hy Hout.
  assert (Hc : ivec2_of_uvec2 gid = gid).
  { unfold ivec2_of_uvec2. rewrite !int_of_uint_small by assumption. now destruct gid. }
  split; [exact Hc|].
  apply cs_main_early_return. rewrite Hc. lia.
Qed.

Lemma C9_overhang_returns_unchanged_witness :
  cs_main grid10 blank10 (12, 3) = Some blank10.
Proof.
  refine (proj2 (C9_overhang_returns_unchanged grid10 blank10 (12, 3) _ _ _)).
  - vm_compute. split; [discriminate|reflexivity].
  - vm_compute. split; [discriminate|reflexivity].
  - simpl. lia.
Defined.

(** ** C10: no shapes *)

(** C10. With [shapeCount <= 0] the loop body never runs: whatever the
    array holds (even nothing) the accumulator stays (0,0) and no entry is
    read, and every invocation that passes the bounds check stores
    (0, 0, 0, 0) at its coordinate, which is what that texel then holds. *)
Theorem C10_no_shapes_writes_zero {A : GLfloat}
        (params : WindFieldParams A) (windRT : image2D A) (gid : Z * Z) :
  shapeCount params <= 0 ->
  fst (ivec2_of_uvec2 gid) < rtWidth params ->
  snd (ivec2_of_uvec2 gid) < rtHeight params ->
  (forall (arr : list (WindShape A)) (p : vec2 A),
      shape_loop arr p (Z.to_nat (shapeCount params)) 0 vzero = Some vzero)
  /\ cs_main params windRT gid = Some (imageStore windRT (ivec2_of_uvec2 gid) zero4)
  /\ (in_image windRT (ivec2_of_uvec2 gid) = true ->
      texel (imageStore windRT (ivec2_of_uvec2 gid) zero4)
            (fst (ivec2_of_uvec2 gid)) (snd (ivec2_of_uvec2 gid)) = zero4).
Proof.
  intros Hc Hx Hy. repeat split.
  - intros arr p. now apply shape_loop_no_iteration.
  - rewrite cs_main_store by assumption. unfold accumulate.
    rewrite shape_loop_no_iteration by assumption. reflexivity.
  - apply imageStore_read.
Qed.

Lemma C10_no_shapes_writes_zero_witness :
  cs_main (assign_shapeCount grid10 0) blank10 (4, 9)
  = Some (imageStore blank10 (4, 9) zero4)
  /\ texel (imageStore blank10 (4, 9) zero4) 4 9 = zero4.
Proof.
  destruct (C10_no_shapes_writes_zero (assign_shapeCount grid10 0) blank10 (4, 9))
    as (_ & Hmain & Hread).
  - vm_compute. discriminate.
  - vm_compute. reflexivity.
  - vm_compute. reflexivity.
  - split; [exact Hmain|]. apply Hread. reflexivity.
Defined.

(** * Further properties *)

(** A dispatch whose work groups cover the grid, run in any order, gives
    every cell of the grid the value [evaluate] computes for it, with the
    two spare channels 0. *)
Theorem dispatch_fills_grid {A : GLfloat} (params : WindFieldParams A) (img : image2D A)
        (nx ny : Z) (schedule : list (Z * Z)) :
  shapeCount params <= Z.of_nat (List.length (shapes params)) ->
  img_w img = rtWidth params -> img_h img = rtHeight params ->
  rtWidth params <= 16 * nx < 2 ^ 31 -> rtHeight params <= 16 * ny < 2 ^ 31 ->
  Permutation schedule (dispatch_ids nx ny) ->
  exists img' : image2D A,
    run_invocations params img schedule = Some img'
    /\ forall x y, in_grid params x y -> texel img' x y = cell_value params x y.
Proof.
  intros Hc Hw Hh Hnx Hny HP.
  destruct (run_invocations_spec params schedule Hc) with (img := img)
    as (img' & Hrun & _ & _ & Hset & _).
  - intros [gx gy] Hin. apply (Permutation_in _ HP) in Hin.
    apply in_dispatch_ids in Hin. cbn [fst snd]. lia.
  - exists img'. split; [exact Hrun|]. intros x y Hgrid. apply Hset.
    + apply (Permutation_in _ (Permutation_sym HP)). apply in_dispatch_ids.
      unfold in_grid in Hgrid. lia.
    + exact Hgrid.
    + apply in_image_spec. unfold in_grid in Hgrid. cbn [fst snd]. lia.
Qed.

(** The 10 x 10 grid of the spec's scenario, one work group: cell (6,5)
    ends with (3, 0, 0, 0). *)
Lemma dispatch_fills_grid_witness :
  exists img' : image2D Sample.arith,
    glDispatchCompute grid10 blank10 1 1 = Some img'
    /\ texel img' 6 5
       = @mk_vec4 Sample.arith (B32.of_Z 3) (S754_zero false) (S754_zero false)
                  (S754_zero false).
Proof.
  destruct (dispatch_fills_grid grid10 blank10 1 1 (dispatch_ids 1 1))
    as (img' & Hrun & Hval).
  - vm_compute. discriminate.
  - reflexivity.
  - reflexivity.
  - vm_compute. split; [discriminate|reflexivity].
  - vm_compute. split; [discriminate|reflexivity].
  - apply Permutation_refl.
  - exists img'. split; [exact Hrun|]. rewrite Hval; [reflexivity|].
    unfold in_grid. simpl. lia.
Defined.

(** Outside every shape the evaluation is (0,0). *)
Theorem outside_every_shape {A : GLfloat} (cell : vec2 A) (l : list (WindShape A)) :
  (forall s, In s l -> isInShape cell s = false) ->
  evaluate cell l = vzero.
Proof.
  intros H. unfold evaluate. generalize (@vzero A) as acc.
  induction l as [|s l IH]; intros acc; simpl; [reflexivity|].
  unfold loop_body at 2. rewrite (H s) by now left.
  apply IH. intros s' Hs'. apply H. now right.
Qed.

Lemma outside_every_shape_witness :
  evaluate (Sample.vec (B32.of_Z 0) (B32.of_Z 0)) [scenario_circle] = vzero.
Proof.
  apply outside_every_shape. intros s [<-|[]]. reflexivity.
Defined.

(** ** Invocations and schedules *)

(** Whatever the id, an invocation that is defined keeps the size of the
    image and every texel other than the one at its own coordinate. *)
Theorem invocation_touches_own_texel_only {A : GLfloat}
        (params : WindFieldParams A) (img : image2D A) (gid : Z * Z) :
  shapeCount params <= Z.of_nat (List.length (shapes params)) ->
  exists img' : image2D A,
    cs_main params img gid = Some img'
    /\ img_w img' = img_w img /\ img_h img' = img_h img
    /\ forall x y, (x, y) <> ivec2_of_uvec2 gid -> texel img' x y = texel img x y.
Proof.
  intros Hc.
  destruct (Z.le_gt_cases (rtWidth params) (fst (ivec2_of_uvec2 gid))) as [Hx|Hx].
  { exists img. rewrite cs_main_early_return by now left. now repeat split. }
  destruct (Z.le_gt_cases (rtHeight params) (snd (ivec2_of_uvec2 gid))) as [Hy|Hy].
  { exists img. rewrite cs_main_early_return by now right. now repeat split. }
  rewrite cs_main_store by lia. rewrite accumulate_in_range by assumption.
  eexists. split; [reflexivity|].
  split; [apply imageStore_dims|]. split; [apply imageStore_dims|].
  intros x y Hne. now apply imageStore_other.
Qed.

Lemma invocation_touches_own_texel_only_witness :
  exists img' : image2D Sample.arith,
    cs_main grid10 blank10 (6, 5) = Some img'
    /\ img_w img' = 10 /\ img_h img' = 10
    /\ forall x y, (x, y) <> (6, 5) -> texel img' x y = texel blank10 x y.
Proof.
  apply (invocation_touches_own_texel_only grid10 blank10 (6, 5)).
  vm_compute. discriminate.
Defined.

(** An id of 2^31 or more becomes a negative coordinate.  The bounds check
    lets it through when the grid has a positive size, the loop runs, and
    the store falls outside the image: the image comes back as it was. *)
Theorem wrapped_id_changes_nothing {A : GLfloat}
        (params : WindFieldParams A) (img : image2D A) (gid : Z * Z) :
  2 ^ 31 <= fst gid < 2 ^ 32 \/ 2 ^ 31 <= snd gid < 2 ^ 32 ->
  shapeCount params <= Z.of_nat (List.length (shapes params)) ->
  (fst (ivec2_of_uvec2 gid) < 0 \/ snd (ivec2_of_uvec2 gid) < 0)
  /\ cs_main params img gid = Some img.
Proof.
  intros Hw Hc.
  assert (Hneg : fst (ivec2_of_uvec2 gid) < 0 \/ snd (ivec2_of_uvec2 gid) < 0).
  { unfold ivec2_of_uvec2; cbn [fst snd].
    destruct Hw as [Hw|Hw]; [left|right]; now apply int_of_uint_wrapped. }
  split; [exact Hneg|]. now apply cs_main_negative_coordinate.
Qed.

Lemma wrapped_id_changes_nothing_witness :
  cs_main grid10 blank10 (4294967295, 3) = Some blank10.
Proof.
  apply (wrapped_id_changes_nothing grid10 blank10 (4294967295, 3)).
  - left. cbn [fst]. lia.
  - vm_compute. discriminate.
Defined.

(** A schedule never writes outside the grid [0, rtWidth) x [0, rtHeight),
    nor to a cell none of its invocations has the id of, and it keeps the
    size of the image. *)
Theorem schedule_writes_only_its_grid_cells {A : GLfloat}
        (params : WindFieldParams A) (img : image2D A) (schedule : list (Z * Z)) :
  shapeCount params <= Z.of_nat (List.length (shapes params)) ->
  (forall g, In g schedule -> 0 <= fst g < 2 ^ 31 /\ 0 <= snd g < 2 ^ 31) ->
  exists img' : image2D A,
    run_invocations params img schedule = Some img'
    /\ img_w img' = img_w img /\ img_h img' = img_h img
    /\ (forall x y, ~ in_grid params x y -> texel img' x y = texel img x y)
    /\ (forall x y, ~ In (x, y) schedule -> texel img' x y = texel img x y).
Proof.
  intros Hc Hids.
  destruct (run_invocations_spec params schedule Hc Hids img)
    as (img' & Hrun & Hw & Hh & _ & Hkeep).
  exists img'. repeat split; try assumption.
  - intros x y Hout. apply Hkeep. now intros [_ Hin].
  - intros x y Hout. apply Hkeep. now intros [Hin _].
Qed.

(** An image larger than the grid: 12 x 12 texels around the 10 x 10 grid. *)
Lemma schedule_writes_only_its_grid_cells_witness :
  exists img' : image2D Sample.arith,
    glDispatchCompute grid10 (@mk_image2D Sample.arith 12 12 (texel blank10)) 1 1
    = Some img'
    /\ texel img' 11 5 = texel blank10 11 5.
Proof.
  destruct (schedule_writes_only_its_grid_cells grid10
              (@mk_image2D Sample.arith 12 12 (texel blank10)) (dispatch_ids 1 1))
    as (img' & Hrun & _ & _ & Hgrid & _).
  - vm_compute. discriminate.
  - intros [gx gy] Hin. apply in_dispatch_ids in Hin. cbn [fst snd]. lia.
  - exists img'. split; [exact Hrun|]. apply Hgrid. unfold in_grid. simpl. lia.
Defined.

(** Running a schedule again on its own output changes no texel, when the
    grid lies within the image: each pass of the main loop reproduces the
    render target of the pass before. *)
Theorem schedule_is_idempotent {A : GLfloat}
        (params : WindFieldParams A) (img : image2D A) (schedule : list (Z * Z)) :
  shapeCount params <= Z.of_nat (List.length (shapes params)) ->
  (forall g, In g schedule -> 0 <= fst g < 2 ^ 31 /\ 0 <= snd g < 2 ^ 31) ->
  rtWidth params <= img_w img -> rtHeight params <= img_h img ->
  exists img1 img2 : image2D A,
    run_invocations params img schedule = Some img1
    /\ run_invocations params img1 schedule = Some img2
    /\ forall x y, texel img2 x y = texel img1 x y.
Proof.
  intros Hc Hids Hw Hh.
  destruct (run_invocations_spec params schedule Hc Hids img)
    as (img1 & Hrun1 & Hw1 & Hh1 & Hset1 & Hkeep1).
  destruct (run_invocations_spec params schedule Hc Hids img1)
    as (img2 & Hrun2 & Hw2 & Hh2 & Hset2 & Hkeep2).
  exists img1, img2. split; [exact Hrun1|]. split; [exact Hrun2|].
  intros x y.
  destruct (in_dec id_eq_dec (x, y) schedule) as [Hin|Hout];
    [|apply Hkeep2; now intros [? _]].
  destruct (Z.le_gt_cases 0 x) as [Hx0|Hx0];
    [|apply Hkeep2; unfold in_grid; intros [_ ?]; lia].
  destruct (Z.le_gt_cases 0 y) as [Hy0|Hy0];
    [|apply Hkeep2; unfold in_grid; intros [_ ?]; lia].
  destruct (Z.lt_ge_cases x (rtWidth params)) as [Hxw|Hxw];
    [|apply Hkeep2; unfold in_grid; intros [_ ?]; lia].
  destruct (Z.lt_ge_cases y (rtHeight params)) as [Hyh|Hyh];
    [|apply Hkeep2; unfold in_grid; intros [_ ?]; lia].
  assert (Hgrid : in_grid params x y) by (unfold in_grid; lia).
  rewrite Hset2, Hset1; try assumption; try reflexivity;
    apply in_image_spec; cbn [fst snd]; lia.
Qed.

Lemma schedule_is_idempotent_witness :
  exists img1 img2 : image2D Sample.arith,
    glDispatchCompute grid10 blank10 1 1 = Some img1
    /\ glDispatchCompute grid10 img1 1 1 = Some img2
    /\ forall x y, texel img2 x y = texel img1 x y.
Proof.
  apply (schedule_is_idempotent grid10 blank10 (dispatch_ids 1 1)).
  - vm_compute. discriminate.
  - intros [gx gy] Hin. apply in_dispatch_ids in Hin. cbn [fst snd]. lia.
  - vm_compute. discriminate.
  - vm_compute. discriminate.
Defined.

(** A schedule is undefined exactly when [shapeCount] exceeds the array and
    one of its invocations passes the bounds check (that invocation reads
    past the array); in particular a schedule of overhang invocations only
    is defined whatever [shapeCount] is. *)
Theorem schedule_undefined_iff {A : GLfloat}
        (params : WindFieldParams A) (schedule : list (Z * Z)) :
  (forall g, In g schedule -> 0 <= fst g < 2 ^ 31 /\ 0 <= snd g < 2 ^ 31) ->
  forall img : image2D A,
    run_invocations params img schedule = None
    <-> (Z.of_nat (List.length (shapes params)) < shapeCount params
         /\ exists g, In g schedule /\ fst g < rtWidth params /\ snd g < rtHeight params).
Proof.
  induction schedule as [|[gx gy] rest IH]; intros Hids img.
  - simpl. split; [discriminate|]. intros (_ & g & [] & _).
  - assert (Hg : 0 <= gx < 2 ^ 31 /\ 0 <= gy < 2 ^ 31) by (apply (Hids (gx, gy)); now left).
    assert (Hrest : forall g, In g rest -> 0 <= fst g < 2 ^ 31 /\ 0 <= snd g < 2 ^ 31)
      by (intros g Hin; apply Hids; now right).
    assert (E : ivec2_of_uvec2 (gx, gy) = (gx, gy)).
    { unfold ivec2_of_uvec2; simpl. now rewrite !int_of_uint_small. }
    simpl.
    destruct (Z.lt_ge_cases gx (rtWidth params)) as [Hw|Hw];
      [destruct (Z.lt_ge_cases gy (rtHeight params)) as [Hh|Hh]|].
    + rewrite cs_main_store by (rewrite E; assumption).
      destruct (accumulate params _) as [t|] eqn:Eacc.
      * assert (Hc : shapeCount params <= Z.of_nat (List.length (shapes params)))
          by (eapply accumulate_defined; rewrite Eacc; discriminate).
        rewrite (IH Hrest). split; [intros [? _]; lia|intros [? _]; lia].
      * split; [|reflexivity]. intros _. split.
        -- destruct (Z.lt_ge_cases (Z.of_nat (List.length (shapes params)))
                       (shapeCount params)) as [?|Hc]; [assumption|].
           exfalso.
           apply (proj2 (accumulate_defined params _) Hc Eacc).
        -- exists (gx, gy). split; [now left|]. cbn [fst snd]. lia.
    + rewrite cs_main_early_return by (right; rewrite E; cbn [snd]; lia).
      rewrite (IH Hrest). split; intros (Hc & g & Hin & Hgw & Hgh).
      * split; [exact Hc|]. exists g. split; [now right|]. lia.
      * split; [exact Hc|]. exists g. destruct Hin as [<-|Hin]; [cbn [fst snd] in *; lia|].
        split; [exact Hin|]. lia.
    + rewrite cs_main_early_return by (left; rewrite E; cbn [fst]; lia).
      rewrite (IH Hrest). split; intros (Hc & g & Hin & Hgw & Hgh).
      * split; [exact Hc|]. exists g. split; [now right|]. lia.
      * split; [exact Hc|]. exists g. destruct Hin as [<-|Hin]; [cbn [fst snd] in *; lia|].
        split; [exact Hin|]. lia.
Qed.

(** With 129 set as the count of the full array, the one work group of the
    10 x 10 grid is undefined. *)
Lemma schedule_undefined_iff_witness :
  glDispatchCompute (assign_shapeCount full_params 129) blank10 1 1 = None.
Proof.
  apply (schedule_undefined_iff (assign_shapeCount full_params 129) (dispatch_ids 1 1)).
  - intros [gx gy] Hin. apply in_dispatch_ids in Hin. cbn [fst snd]. lia.
  - split.
    + cbn [assign_shapeCount shapes shapeCount full_params]. rewrite repeat_length. lia.
    + exists (0, 0). split; [apply in_dispatch_ids; lia|]. vm_compute. now split.
Defined.

(** ** The work groups of [main] *)

Lemma group_count_bounds (n : Z) :
  0 <= n -> n <= 16 * group_count n < n + 16.
Proof.
  intros Hn. unfold group_count. rewrite Z.quot_div_nonneg by lia.
  pose proof (Z.div_mod (n + 15) 16 ltac:(lia)) as Hdm.
  pose proof (Z.mod_pos_bound (n + 15) 16 ltac:(lia)) as Hmod. lia.
Qed.

(** [(n + 15) / 16] groups of 16 cover an axis of [n] cells with fewer than
    16 cells of overhang, so the dispatch [main] writes reaches every cell:
    for a grid of any size (within [int] range, the image having the size
    of the grid) it ends and leaves in every cell the value accumulated for
    it. *)
Theorem work_groups_cover_the_grid {A : GLfloat}
        (params : WindFieldParams A) (img : image2D A) :
  shapeCount params <= Z.of_nat (List.length (shapes params)) ->
  0 <= rtWidth params -> rtWidth params + 15 < 2 ^ 31 ->
  0 <= rtHeight params -> rtHeight params + 15 < 2 ^ 31 ->
  img_w img = rtWidth params -> img_h img = rtHeight params ->
  rtWidth params <= 16 * group_count (rtWidth params) < rtWidth params + 16
  /\ rtHeight params <= 16 * group_count (rtHeight params) < rtHeight params + 16
  /\ exists img' : image2D A,
       glDispatchCompute params img (group_count (rtWidth params))
                         (group_count (rtHeight params)) = Some img'
       /\ forall x y, in_grid params x y -> texel img' x y = cell_value params x y.
Proof.
  intros Hc Hw0 Hw Hh0 Hh Hiw Hih.
  pose proof (group_count_bounds _ Hw0) as Gw.
  pose proof (group_count_bounds _ Hh0) as Gh.
  split; [exact Gw|]. split; [exact Gh|].
  destruct (run_invocations_spec params
              (dispatch_ids (group_count (rtWidth params)) (group_count (rtHeight params)))
              Hc) with (img := img) as (img' & Hrun & _ & _ & Hset & _).
  - intros [gx gy] Hin. apply in_dispatch_ids in Hin. cbn [fst snd]. lia.
  - exists img'. split; [exact Hrun|]. intros x y Hgrid. apply Hset.
    + apply in_dispatch_ids. unfold in_grid in Hgrid. lia.
    + exact Hgrid.
    + apply in_image_spec. unfold in_grid in Hgrid. cbn [fst snd]. lia.
Qed.

(** The render target of [main], 1024 x 768 with 64 x 48 work groups: the
    pixel (270, 230) lies in the circle and in the rectangle. *)
Lemma work_groups_cover_the_grid_witness :
  exists img' : image2D Sample.arith,
    main_dispatch Sample.builtins (windRT_of Sample.builtins (fun _ _ => zero4)) = Some img'
    /\ texel img' 270 230
       = cell_value (Host.windParams Sample.builtins) 270 230.
Proof.
  destruct (work_groups_cover_the_grid (Host.windParams Sample.builtins)
              (windRT_of Sample.builtins (fun _ _ => zero4)))
    as (_ & _ & img' & Hrun & Hval).
  - vm_compute. discriminate.
  - vm_compute. discriminate.
  - vm_compute. reflexivity.
  - vm_compute. discriminate.
  - vm_compute. reflexivity.
  - reflexivity.
  - reflexivity.
  - exists img'. split; [exact Hrun|]. apply Hval.
    unfold in_grid. cbn. unfold Host.RT_WIDTH, Host.RT_HEIGHT. lia.
Defined.

(** ** Shapes and cells in general *)

(** A shape changes the value of the cells it contains only: for any other
    cell it can be dropped from, or put into, the list at any place. *)
Theorem shape_affects_only_cells_it_contains {A : GLfloat}
        (cell : vec2 A) (s : WindShape A) (l1 l2 : list (WindShape A)) :
  isInShape cell s = false ->
  evaluate cell (l1 ++ s :: l2) = evaluate cell (l1 ++ l2).
Proof.
  intros H. rewrite !evaluate_app. simpl. unfold loop_body at 2. now rewrite H.
Qed.

Lemma shape_affects_only_cells_it_contains_witness :
  evaluate (Sample.vec (B32.of_Z 8) (B32.of_Z 5))
           ([circle32 Sample.builtins 1] ++ scenario_circle :: [circle32 Sample.builtins 1])
  = evaluate (Sample.vec (B32.of_Z 8) (B32.of_Z 5))
             ([circle32 Sample.builtins 1] ++ [circle32 Sample.builtins 1]).
Proof.
  apply shape_affects_only_cells_it_contains. reflexivity.
Defined.

Section Superposition.
Context {A : GLfloat}.
Hypothesis fadd_assoc : forall a b c : float, fadd (fadd a b) c = fadd a (fadd b c).
Hypothesis fadd_0_l : forall a : float, fadd lit_0 a = a.
Hypothesis fadd_0_r : forall a : float, fadd a lit_0 = a.

Lemma fold_vadd_from (cs : list (vec2 A)) :
  forall acc : vec2 A, fold_left vadd cs acc = vadd acc (fold_left vadd cs vzero).
Proof.
  induction cs as [|c cs IH]; intros acc; simpl.
  - destruct acc as [x y]. unfold vadd; simpl. now rewrite !fadd_0_r.
  - rewrite IH. rewrite (IH (vadd vzero c)).
    destruct acc as [x y], c as [cx cy]. unfold vadd; simpl.
    now rewrite !fadd_0_l, !fadd_assoc.
Qed.

End Superposition.

(** Without rounding (addition associative, with 0.0 as identity) the field
    of two lists of shapes is the sum of their fields. *)
Theorem fields_add_up_without_rounding {A : GLfloat}
        (cell : vec2 A) (l1 l2 : list (WindShape A)) :
  (forall a b c : float, fadd (fadd a b) c = fadd a (fadd b c)) ->
  (forall a : float, fadd lit_0 a = a) ->
  (forall a : float, fadd a lit_0 = a) ->
  evaluate cell (l1 ++ l2) = vadd (evaluate cell l1) (evaluate cell l2).
Proof.
  intros Ha Hl Hr. unfold evaluate. rewrite fold_left_app, !fold_loop_body.
  now apply fold_vadd_from.
Qed.

Lemma fields_add_up_without_rounding_witness :
  evaluate (@mk_vec2 real_arith 1%R 1%R)
           ([real_circle 0 0 2 1 0 3] ++ [real_circle 2 2 2 0 1 5])
  = vadd (evaluate (@mk_vec2 real_arith 1%R 1%R) [real_circle 0 0 2 1 0 3])
         (evaluate (@mk_vec2 real_arith 1%R 1%R) [real_circle 2 2 2 0 1 5]).
Proof.
  apply fields_add_up_without_rounding; simpl; intros; lra.
Defined.

(** ** Radii in binary32: NaN, negative, growing *)

Ltac split_compares :=
  repeat match goal with
         | |- context [Z.compare ?a ?b] => destruct (Z.compare_spec a b)
         | |- context [PosDef.Pos.compare_cont Eq ?a ?b] =>
             change (PosDef.Pos.compare_cont Eq a b) with (Pos.compare a b);
             destruct (Pos.compare_spec a b)
         end.

Lemma SFcompare_chain (a b c : spec_float) (x y : comparison) :
  SFcompare a b = Some x -> SFcompare b c = Some y -> x <> Gt -> y <> Gt ->
  SFcompare a c = Some (compare_chain x y).
Proof.
  destruct a as [sa|sa| |sa ma ea], b as [sb|sb| |sb mb eb], c as [sc|sc| |sc mc ec];
    simpl; try discriminate;
    try (destruct sa); try (destruct sb); try (destruct sc);
    intros [= <-] [= <-]; try congruence; try reflexivity; f_equal;
    split_compares; simpl; intros; subst; try congruence; try lia.
Qed.

Lemma SFleb_trans (a b c : spec_float) :
  SFleb a b = true -> SFleb b c = true -> SFleb a c = true.
Proof.
  unfold SFleb. destruct (SFcompare a b) as [x|] eqn:Ex; [|discriminate].
  destruct (SFcompare b c) as [y|] eqn:Ey; [|discriminate].
  intros Hx Hy.
  rewrite (SFcompare_chain a b c x y Ex Ey) by (destruct x, y; discriminate).
  now destruct x, y.
Qed.

Lemma SFleb_SFltb_trans (a b c : spec_float) :
  SFleb a b = true -> SFltb b c = true -> SFltb a c = true.
Proof.
  unfold SFleb, SFltb. destruct (SFcompare a b) as [x|] eqn:Ex; [|discriminate].
  destruct (SFcompare b c) as [y|] eqn:Ey; [|discriminate].
  intros Hx Hy.
  rewrite (SFcompare_chain a b c x y Ex Ey) by (destruct x, y; discriminate).
  now destruct x, y.
Qed.

Lemma SFleb_nan (a b : spec_float) :
  is_nan a = true \/ is_nan b = true -> SFleb a b = false.
Proof. destruct a, b; simpl; intros [H|H]; try discriminate; reflexivity. Qed.

Lemma SFltb_nan (a b : spec_float) :
  is_nan a = true \/ is_nan b = true -> SFltb a b = false.
Proof. destruct a, b; simpl; intros [H|H]; try discriminate; reflexivity. Qed.

Lemma binary_round_aux_not_negative (m e : Z) (l : location) :
  not_negative (binary_round_aux B32.prec B32.emax false m e l) = true.
Proof.
  unfold binary_round_aux.
  destruct (shr_fexp B32.prec B32.emax m e l) as [mrs' e'].
  destruct (shr_fexp B32.prec B32.emax _ e' loc_Exact) as [mrs'' e''].
  destruct (shr_m mrs''); simpl; try reflexivity.
  now destruct (_ <=? _).
Qed.

Lemma SFsqrt_not_negative (x : spec_float) :
  not_negative (SFsqrt B32.prec B32.emax x) = true.
Proof.
  destruct x as [s|[|]| |[|] m e]; simpl; try reflexivity.
  destruct (SFsqrt_core_binary B32.prec B32.emax (Z.pos m) e) as [[mz ez] lz].
  apply binary_round_aux_not_negative.
Qed.

Lemma distance_not_negative (B : B32.Builtins) (p q : vec2 (binary32 B)) :
  not_negative (distance p q) = true.
Proof. apply SFsqrt_not_negative. Qed.

(** Below zero: not above a value that is not negative, and below it unless
    it is NaN. *)
Lemma below_zero_below_not_negative (r d : spec_float) :
  SFltb r (S754_zero false) = true -> not_negative d = true ->
  SFleb d r = false /\ (is_nan d = false -> SFltb r d = true).
Proof.
  destruct r as [sr|[|]| |[|] mr er], d as [sd|[|]| |[|] md ed]; simpl;
    try discriminate; intros _ _; split; try reflexivity; intros; try discriminate.
Qed.

(** A NaN radius, or a distance that is NaN: the circle contains no such
    cell ([dist <= r] is false), while the sector does not bound the
    distance at all ([dist > r] is false too) and decides on the angle
    alone. *)
Theorem nan_radius_or_distance (B : B32.Builtins)
        (p : vec2 (binary32 B)) (s : WindShape (binary32 B)) :
  is_nan (vx (size s)) = true \/ is_nan (distance p (pos s)) = true ->
  isInCircle p s = false
  /\ isInSector p s
     = in_sweep (polar_angle (vsub p (pos s))) (rotation s) (angleRange s).
Proof.
  intros H. split.
  - unfold isInCircle. apply SFleb_nan. tauto.
  - unfold isInSector.
    replace (fgt (length (vsub p (pos s))) (vx (size s))) with false; [reflexivity|].
    symmetry. apply SFltb_nan. tauto.
Qed.

(** A radius below zero: the circle contains no cell, and the sector none
    whose distance from the centre is a number. *)
Theorem negative_radius_contains_nothing (B : B32.Builtins)
        (p : vec2 (binary32 B)) (s : WindShape (binary32 B)) :
  SFltb (vx (size s)) (S754_zero false) = true ->
  isInCircle p s = false
  /\ (is_nan (distance p (pos s)) = false -> isInSector p s = false).
Proof.
  intros Hneg.
  destruct (below_zero_below_not_negative _ _ Hneg (distance_not_negative B p (pos s)))
    as [Hle Hlt].
  split; [exact Hle|].
  intros Hnum. apply isInSector_beyond_radius. now apply Hlt.
Qed.

(** Growing the radius loses no cell: what a circle or a sector contains,
    the same shape with a radius at least as large contains too. *)
Theorem larger_radius_contains_more (B : B32.Builtins)
        (p : vec2 (binary32 B)) (s s' : WindShape (binary32 B)) :
  pos s' = pos s -> rotation s' = rotation s -> angleRange s' = angleRange s ->
  SFleb (vx (size s)) (vx (size s')) = true ->
  (isInCircle p s = true -> isInCircle p s' = true)
  /\ (isInSector p s = true -> isInSector p s' = true).
Proof.
  intros Hp Hr Ha Hle. split.
  - unfold isInCircle. rewrite Hp. intros H. exact (SFleb_trans _ _ _ H Hle).
  - unfold isInSector. rewrite Hp, Hr, Ha.
    destruct (fgt (length (vsub p (pos s))) (vx (size s))) eqn:E; [discriminate|].
    destruct (fgt (length (vsub p (pos s))) (vx (size s'))) eqn:E'; [|trivial].
    intros _. unfold fgt in E, E'.
    pose proof (SFleb_SFltb_trans _ _ _ Hle E') as Hlt.
    change (@flt (binary32 B)) with SFltb in E. congruence.
Qed.

Lemma nan_radius_or_distance_witness :
  isInCircle (Sample.vec (B32.of_Z 5) (B32.of_Z 5))
             (Sample.circle (Sample.vec (B32.of_Z 5) (B32.of_Z 5)) S754_nan
                            (Sample.vec (B32.of_Z 1) (B32.of_Z 0)) (B32.of_Z 3))
  = false.
Proof.
  apply (nan_radius_or_distance Sample.builtins). left. reflexivity.
Defined.

Lemma negative_radius_contains_nothing_witness :
  isInCircle (Sample.vec (B32.of_Z 5) (B32.of_Z 5))
             (Sample.circle (Sample.vec (B32.of_Z 5) (B32.of_Z 5)) (SFopp (B32.of_Z 2))
                            (Sample.vec (B32.of_Z 1) (B32.of_Z 0)) (B32.of_Z 3))
  = false.
Proof.
  apply (negative_radius_contains_nothing Sample.builtins). reflexivity.
Defined.

Lemma larger_radius_contains_more_witness :
  isInCircle (Sample.vec (B32.of_Z 6) (B32.of_Z 5))
             (Sample.circle (Sample.vec (B32.of_Z 5) (B32.of_Z 5)) (B32.of_Z 3)
                            (Sample.vec (B32.of_Z 1) (B32.of_Z 0)) (B32.of_Z 3))
  = true.
Proof.
  apply (proj1 (larger_radius_contains_more Sample.builtins
                  (Sample.vec (B32.of_Z 6) (B32.of_Z 5)) scenario_circle
                  (Sample.circle (Sample.vec (B32.of_Z 5) (B32.of_Z 5)) (B32.of_Z 3)
                                 (Sample.vec (B32.of_Z 1) (B32.of_Z 0)) (B32.of_Z 3))
                  eq_refl eq_refl eq_refl eq_refl)).
  reflexivity.
Defined.

Lemma SFsub_diag (x : spec_float) :
  is_finite x = true -> SFsub B32.prec B32.emax x x = S754_zero false.
Proof.
  destruct x as [[|]| | |s m e]; try discriminate; try reflexivity.
  intros _. unfold SFsub. cbv zeta. now rewrite Z.sub_diag.
Qed.

(** A circle with a finite centre contains the centre exactly when
    [0 <= radius]: not when the radius is negative or NaN. *)
Theorem circle_contains_its_centre_iff (B : B32.Builtins) (s : WindShape (binary32 B)) :
  is_finite (vx (pos s)) = true -> is_finite (vy (pos s)) = true ->
  distance (pos s) (pos s) = S754_zero false
  /\ isInCircle (pos s) s = SFleb (S754_zero false) (vx (size s)).
Proof.
  intros Hx Hy.
  assert (Hd : distance (pos s) (pos s) = S754_zero false).
  { unfold distance, length, vsub; cbn [vx vy].
    change (@fsub (binary32 B)) with (SFsub B32.prec B32.emax).
    now rewrite (SFsub_diag _ Hx), (SFsub_diag _ Hy). }
  split; [exact Hd|]. unfold isInCircle. unfold distance in Hd. now rewrite Hd.
Qed.

Lemma circle_contains_its_centre_iff_witness :
  isInCircle (pos scenario_circle) scenario_circle = true.
Proof.
  rewrite (proj2 (circle_contains_its_centre_iff Sample.builtins scenario_circle
                    eq_refl eq_refl)).
  reflexivity.
Defined.

(** ** Angles and sizes in binary32 *)

(** A sector whose rotation, angle range or computed angle is NaN contains
    no cell, and neither does a rectangle with a NaN size. *)
Theorem nan_angle_or_size_contains_nothing (B : B32.Builtins)
        (p : vec2 (binary32 B)) (s : WindShape (binary32 B)) :
  (is_nan (rotation s) = true \/ is_nan (angleRange s) = true
   \/ is_nan (polar_angle (vsub p (pos s))) = true ->
   isInSector p s = false)
  /\ (is_nan (vx (size s)) = true \/ is_nan (vy (size s)) = true ->
      isInRect p s = false).
Proof.
  split.
  - intros H. unfold isInSector.
    destruct (fgt (length (vsub p (pos s))) (vx (size s))); [reflexivity|].
    change (in_sweep (polar_angle (vsub p (pos s))) (rotation s) (angleRange s) = false).
    unfold in_sweep, fgt, fge.
    generalize dependent (polar_angle (vsub p (pos s))). intros a H.
    change (@flt (binary32 B)) with SFltb. change (@fle (binary32 B)) with SFleb.
    change (@fadd (binary32 B)) with (SFadd B32.prec B32.emax).
    change (@fsub (binary32 B)) with (SFsub B32.prec B32.emax).
    destruct H as [H|[H|H]].
    + destruct (rotation s); try discriminate H. simpl.
      now destruct a.
    + destruct (angleRange s); try discriminate H.
      replace (SFadd B32.prec B32.emax (rotation s) S754_nan) with S754_nan
        by now destruct (rotation s).
      simpl. rewrite (SFleb_nan a S754_nan) by now right. apply andb_false_r.
    + destruct a; try discriminate H.
      rewrite (SFleb_nan (rotation s) S754_nan) by now right.
      rewrite !(SFleb_nan S754_nan) by now left. now destruct (SFltb _ _).
  - intros H. unfold isInRect, vscale; cbn [vx vy].
    change (@fle (binary32 B)) with SFleb.
    change (@fmul (binary32 B)) with (SFmul B32.prec B32.emax).
    destruct H as [H|H].
    + destruct (vx (size s)); try discriminate H. simpl.
      now rewrite SFleb_nan by now right.
    + destruct (vy (size s)); try discriminate H. simpl.
      rewrite (SFleb_nan _ S754_nan) by now right. apply andb_false_r.
Qed.

Lemma nan_angle_or_size_contains_nothing_witness :
  isInRect (Sample.vec (B32.of_Z 5) (B32.of_Z 5))
           (@mk_WindShape Sample.arith SHAPE_RECT (S754_zero false)
              (Sample.vec (B32.of_Z 5) (B32.of_Z 5))
              (Sample.vec S754_nan (B32.of_Z 2))
              (S754_zero false) (S754_zero false)
              (Sample.vec (B32.of_Z 1) (B32.of_Z 0)) (B32.of_Z 3) (S754_zero false))
  = false.
Proof.
  apply (proj2 (nan_angle_or_size_contains_nothing Sample.builtins _ _)).
  left. reflexivity.
Defined.

(** A sector whose end angle, [rotation + angleRange] as computed, is below
    its start angle and not above 360 (a negative range) contains no
    cell. *)
Theorem sector_end_below_start_is_empty (B : B32.Builtins)
        (p : vec2 (binary32 B)) (s : WindShape (binary32 B)) :
  SFltb (fadd (rotation s) (angleRange s)) (rotation s) = true ->
  fgt (fadd (rotation s) (angleRange s)) lit_360 = false ->
  isInSector p s = false.
Proof.
  intros Hlt Hwrap. unfold isInSector.
  destruct (fgt (length (vsub p (pos s))) (vx (size s))); [reflexivity|].
  cbv zeta. rewrite Hwrap. unfold fge.
  match goal with |- ?x && ?y = false => destruct x eqn:E1; [|reflexivity];
                                          destruct y eqn:E2; [|reflexivity] end.
  exfalso.
  pose proof (SFleb_trans _ _ _ E1 E2) as Hle.
  exact (B32.SFleb_SFltb_excl _ _ Hle Hlt).
Qed.

Lemma sector_end_below_start_is_empty_witness :
  isInSector (Sample.vec Sample.p355_x Sample.p355_y)
             (@mk_WindShape Sample.arith SHAPE_SECTOR (S754_zero false)
                (Sample.vec (S754_zero false) (S754_zero false))
                (Sample.vec (B32.of_Z 2000) (S754_zero false))
                (B32.of_Z 350) (SFopp (B32.of_Z 20))
                (Sample.vec (B32.of_Z 1) (S754_zero false)) (B32.of_Z 1) (S754_zero false))
  = false.
Proof.
  apply sector_end_below_start_is_empty; reflexivity.
Defined.

(** ** [rotateVec] over the reals *)

(** Without rounding [rotateVec] is a rotation: it keeps the length of the
    vector, turning by [a] and then by [b] is turning by [a + b], and
    turning by [-a] undoes turning by [a]. *)
Theorem rotateVec_is_a_rotation (v : vec2 real_arith) (a b : R) :
  length (rotateVec v a) = length v
  /\ rotateVec (rotateVec v a) b = rotateVec v (a + b)%R
  /\ rotateVec (rotateVec v a) (- a)%R = v.
Proof.
  destruct v as [x y]. pose proof (sin2_cos2 a) as H1. unfold Rsqr in H1.
  split; [|split].
  - unfold length, rotateVec; simpl. f_equal.
    transitivity ((x * x + y * y) * (sin a * sin a + cos a * cos a))%R; [ring|].
    rewrite H1. ring.
  - unfold rotateVec; simpl. rewrite cos_plus, sin_plus. f_equal; ring.
  - unfold rotateVec; simpl. rewrite cos_neg, sin_neg. f_equal.
    + transitivity (x * (sin a * sin a + cos a * cos a))%R; [ring|].
      rewrite H1. ring.
    + transitivity (y * (sin a * sin a + cos a * cos a))%R; [ring|].
      rewrite H1. ring.
Qed.

(** ** Circles and sectors in binary32 *)

Lemma SFcompare_defined (a b : spec_float) :
  is_nan a = false -> is_nan b = false -> exists c, SFcompare a b = Some c.
Proof.
  destruct a, b; simpl; try discriminate; intros _ _; eexists; reflexivity.
Qed.

Lemma not_SFltb_SFleb (a b : spec_float) :
  is_nan a = false -> is_nan b = false -> SFltb a b = false -> SFleb b a = true.
Proof.
  intros Ha Hb. destruct (SFcompare_defined a b Ha Hb) as [c Hc].
  unfold SFltb, SFleb. rewrite Hc, (B32.SFcompare_antisym _ _ _ Hc).
  now destruct c.
Qed.

(** A sector lies within the circle of its centre and radius: a cell it
    contains is at a distance [<= size.x], when both are numbers. *)
Theorem sector_lies_within_its_circle (B : B32.Builtins)
        (p : vec2 (binary32 B)) (s : WindShape (binary32 B)) :
  is_nan (vx (size s)) = false -> is_nan (distance p (pos s)) = false ->
  isInSector p s = true -> isInCircle p s = true.
Proof.
  intros Hr Hd. unfold isInSector, isInCircle.
  destruct (fgt (length (vsub p (pos s))) (vx (size s))) eqn:E; [discriminate|].
  intros _. now apply not_SFltb_SFleb.
Qed.

Lemma sector_lies_within_its_circle_witness :
  isInCircle (Sample.vec Sample.p355_x Sample.p355_y) wrap_sector = true.
Proof.
  apply (sector_lies_within_its_circle Sample.builtins); reflexivity.
Defined.

Lemma SFmul_square_abs (x : spec_float) :
  SFmul B32.prec B32.emax x x = SFmul B32.prec B32.emax (SFabs x) (SFabs x).
Proof. destruct x as [[|]|[|]| |[|] m e]; reflexivity. Qed.

Lemma SFabs_binary_round (s : bool) (m : positive) (e : Z) :
  SFabs (binary_round B32.prec B32.emax s m e)
  = SFabs (binary_round B32.prec B32.emax false m e).
Proof.
  unfold binary_round.
  destruct (shl_align m e _) as [mz ez]. unfold binary_round_aux.
  destruct (shr_fexp B32.prec B32.emax (Z.pos mz) ez loc_Exact) as [mrs' e'].
  destruct (shr_fexp B32.prec B32.emax _ e' loc_Exact) as [mrs'' e''].
  destruct (shr_m mrs''); simpl; try reflexivity.
  now destruct (_ <=? _).
Qed.

Lemma SFabs_binary_normalize_opp (z e : Z) :
  SFabs (binary_normalize B32.prec B32.emax (- z) e false)
  = SFabs (binary_normalize B32.prec B32.emax z e false).
Proof.
  destruct z as [|q|q]; simpl; [reflexivity| |];
    now rewrite (SFabs_binary_round true).
Qed.

Lemma SFabs_SFsub_swap (x y : spec_float) :
  SFabs (SFsub B32.prec B32.emax x y) = SFabs (SFsub B32.prec B32.emax y x).
Proof.
  destruct x as [[|]|[|]| |sx mx ex], y as [[|]|[|]| |sy my ey]; try reflexivity.
  unfold SFsub. cbv zeta. rewrite (Z.min_comm ey ex).
  rewrite <- SFabs_binary_normalize_opp. f_equal. f_equal. ring.
Qed.

Lemma distance_is_symmetric (B : B32.Builtins) (p q : vec2 (binary32 B)) :
  distance p q = distance q p.
Proof.
  unfold distance, length, vsub; cbn [vx vy].
  change (@flength (binary32 B))
    with (fun x y => SFsqrt B32.prec B32.emax
                       (SFadd B32.prec B32.emax (SFmul B32.prec B32.emax x x)
                                                (SFmul B32.prec B32.emax y y))).
  change (@fsub (binary32 B)) with (SFsub B32.prec B32.emax). cbv beta.
  rewrite (SFmul_square_abs (SFsub _ _ (vx p) (vx q))),
          (SFmul_square_abs (SFsub _ _ (vy p) (vy q))),
          (SFabs_SFsub_swap (vx p)), (SFabs_SFsub_swap (vy p)),
          <- !SFmul_square_abs.
  reflexivity.
Qed.

(** The circle test is symmetric, rounding included: the circle around [c]
    contains [p] exactly when the circle of the same radius around [p]
    contains [c], the distance being the same float in both directions. *)
Theorem circle_test_is_symmetric (B : B32.Builtins)
        (p : vec2 (binary32 B)) (s s' : WindShape (binary32 B)) :
  pos s' = p -> vx (size s') = vx (size s) ->
  distance (pos s) (pos s') = distance p (pos s)
  /\ isInCircle (pos s) s' = isInCircle p s.
Proof.
  intros Hp Hr. subst p.
  split; [apply distance_is_symmetric|].
  unfold isInCircle. rewrite Hr.
  change (length (vsub (pos s) (pos s'))) with (distance (pos s) (pos s')).
  change (length (vsub (pos s') (pos s))) with (distance (pos s') (pos s)).
  now rewrite distance_is_symmetric.
Qed.

Lemma circle_test_is_symmetric_witness :
  isInCircle (pos scenario_circle)
             (Sample.circle (Sample.vec (B32.of_Z 6) (B32.of_Z 5)) (B32.of_Z 2)
                            (Sample.vec (B32.of_Z 1) (B32.of_Z 0)) (B32.of_Z 3))
  = isInCircle (Sample.vec (B32.of_Z 6) (B32.of_Z 5)) scenario_circle.
Proof.
  apply (proj2 (circle_test_is_symmetric Sample.builtins
                  (Sample.vec (B32.of_Z 6) (B32.of_Z 5)) scenario_circle
                  (Sample.circle (Sample.vec (B32.of_Z 6) (B32.of_Z 5)) (B32.of_Z 2)
                                 (Sample.vec (B32.of_Z 1) (B32.of_Z 0)) (B32.of_Z 3))
                  eq_refl eq_refl)).
Defined.
